(** * Status reconciliation of the cloud-controller-manager ClusterOperator

    A shallow embedding of [pkg/controllers/status.go] (the transitions
    setStatusDegraded, setStatusProgressing, setStatusAvailable,
    clearCloudControllerOwnerCondition and the orchestrator syncStatus) and of
    the PEM utility [CertificateData], with the properties the specification
    states about them.

    Conventions of the embedding:
    - a Go [string] is a [string]; string-typed enumerations
      ([ClusterStatusConditionType], [ConditionStatus]) stay strings, with the
      named constants of the API package;
    - a slice is a [list]; a nil slice and an empty slice are both [[]]
      (every comparison the code makes treats them alike, see the notes at
      the comparisons);
    - a [metav1.Time] is an integer number of ticks;
    - the API server behind [client.Client] is an explicit state, threaded
      through a state monad; a Go [error] result is an [option error], [None]
      being [nil];
    - logging (klog) and event recording (Recorder.Eventf) do not influence
      any value computed here and are left out. *)

From Stdlib Require Import String Ascii List ZArith Lia Bool.
From Equations Require Import Equations.
Import ListNotations.

Open Scope string_scope.
Open Scope list_scope.

(* ===================================================================== *)
(** ** Go values shared by both packages *)
(* ===================================================================== *)

Module Go.

(** [metav1.StatusReason], as far as [errors.IsNotFound] and the store model
    distinguish reasons. *)
Inductive StatusReason : Type :=
| StatusReasonUnknown
| StatusReasonNotFound
| StatusReasonAlreadyExists
| StatusReasonConflict.

(** A Go [error] value, by dynamic type: [*errors.errorString] (what
    [errors.New] and a [fmt.Errorf] without [%w] return) and
    [*apierrors.StatusError] (what the API client returns). *)
Inductive error : Type :=
| errorString (s : string)
| StatusError (reason : StatusReason) (message : string).

(** The method [Error()]. *)
Definition Error (err : error) : string :=
  match err with
  | errorString s => s
  | StatusError _ message => message
  end.

Definition errors_New (s : string) : error := errorString s.

(** [apierrors.IsNotFound]. *)
Definition IsNotFound (err : option error) : bool :=
  match err with
  | Some (StatusError StatusReasonNotFound _) => true
  | _ => false
  end.

(** The double quote character, and the verb [%q] on a string that needs no
    escaping (the only strings the code quotes are such constants). *)
Definition dquote : string := String (ascii_of_nat 34) EmptyString.

Definition Sprintf_q (s : string) : string := (dquote ++ s ++ dquote)%string.

(** [strings.Join]. *)
Fixpoint strings_Join (elems : list string) (sep : string) : string :=
  match elems with
  | [] => ""
  | [x] => x
  | x :: rest => (x ++ sep ++ strings_Join rest sep)%string
  end.

(** Boolean equality of slices, element by element and in order. *)
Fixpoint slice_eqb {A : Type} (eqb : A -> A -> bool) (xs ys : list A) : bool :=
  match xs, ys with
  | [], [] => true
  | x :: xs', y :: ys' => eqb x y && slice_eqb eqb xs' ys'
  | _, _ => false
  end.

End Go.

Import Go.

(* ===================================================================== *)
(** ** Package controllers: status.go *)
(* ===================================================================== *)

Module controllers.

(** *** The API types (github.com/openshift/api/config/v1) *)

Definition Time : Type := Z.

Definition ClusterStatusConditionType : Type := string.
Definition ConditionStatus : Type := string.

Definition OperatorAvailable : ClusterStatusConditionType := "Available".
Definition OperatorProgressing : ClusterStatusConditionType := "Progressing".
Definition OperatorDegraded : ClusterStatusConditionType := "Degraded".
Definition OperatorUpgradeable : ClusterStatusConditionType := "Upgradeable".

Definition ConditionTrue : ConditionStatus := "True".
Definition ConditionFalse : ConditionStatus := "False".
Definition ConditionUnknown : ConditionStatus := "Unknown".

Definition GroupName : string := "config.openshift.io".

Record ClusterOperatorStatusCondition : Type := mkCondition {
  cond_Type : ClusterStatusConditionType;
  cond_Status : ConditionStatus;
  cond_LastTransitionTime : Time;
  cond_Reason : string;
  cond_Message : string
}.

Record OperandVersion : Type := mkOperandVersion {
  ov_Name : string;
  ov_Version : string
}.

Record ObjectReference : Type := mkObjectReference {
  ref_Group : string;
  ref_Resource : string;
  ref_Namespace : string;
  ref_Name : string
}.

Record ClusterOperatorStatus : Type := mkStatus {
  Conditions : list ClusterOperatorStatusCondition;
  Versions : list OperandVersion;
  RelatedObjects : list ObjectReference
}.

Record ClusterOperator : Type := mkClusterOperator {
  Name : string;
  Status : ClusterOperatorStatus
}.

Definition OperandVersion_eqb (a b : OperandVersion) : bool :=
  String.eqb (ov_Name a) (ov_Name b) && String.eqb (ov_Version a) (ov_Version b).

Definition ObjectReference_eqb (a b : ObjectReference) : bool :=
  String.eqb (ref_Group a) (ref_Group b) && String.eqb (ref_Resource a) (ref_Resource b)
  && String.eqb (ref_Namespace a) (ref_Namespace b) && String.eqb (ref_Name a) (ref_Name b).

(** [reflect.DeepEqual] on two version slices.  It tells a nil slice from an
    empty one, but the code only compares against the one-element desired
    list, where the two agree. *)
Definition reflect_DeepEqual (a b : list OperandVersion) : bool :=
  slice_eqb OperandVersion_eqb a b.

(** [equality.Semantic.DeepEqual] on two related-object slices (nil and empty
    are equal for it). *)
Definition Semantic_DeepEqual (a b : list ObjectReference) : bool :=
  slice_eqb ObjectReference_eqb a b.

(** *** Constants of status.go *)

Definition ReasonAsExpected : string := "AsExpected".
Definition ReasonInitializing : string := "Initializing".
Definition ReasonSyncing : string := "SyncingResources".
Definition ReasonSyncFailed : string := "SyncingFailed".
Definition ReasonPlatformTechPreview : string := "PlatformTechPreview".

Definition clusterOperatorName : string := "cloud-controller-manager".
Definition operatorVersionKey : string := "operator".
Definition defaultManagementNamespace : string := "openshift-cloud-controller-manager-operator".

Definition releaseVersionEnvVariableName : string := "RELEASE_VERSION".
Definition unknownVersionValue : string := "unknown".

(** The condition type the removal transition retires.  Its declaration is
    in another file of the package; the comment on
    clearCloudControllerOwnerCondition names it.  No proof below looks at
    its value. *)
Definition cloudControllerOwnershipCondition : ClusterStatusConditionType :=
  "CloudControllerOwner".

(** [clock.PassiveClock]: the reading of [Now()]. *)
Record PassiveClock : Type := mkClock { clock_Now : Time }.

(** The receiver.  The embedded [client.Client] is the [World] below; the
    event recorder is left out. *)
Record ClusterOperatorStatusClient : Type := mkClient {
  Clock : PassiveClock;
  ManagedNamespace : string;
  ReleaseVersion : string
}.

(** *** The condition helpers (library-go, v1helpers) *)

(** Modelled from the spec: [v1helpers.FindStatusCondition] is vendored code
    that is not among the sources; the spec's [findCondition(set, type)]
    returns the condition of that type or absent.  On a list that repeats a
    type the first one is the condition found. *)
Fixpoint FindStatusCondition (conditions : list ClusterOperatorStatusCondition)
    (conditionType : ClusterStatusConditionType) : option ClusterOperatorStatusCondition :=
  match conditions with
  | [] => None
  | c :: rest =>
      if String.eqb (cond_Type c) conditionType then Some c
      else FindStatusCondition rest conditionType
  end.

(** The merge of an update into the existing condition of its type: status,
    reason and message are the update's; the transition time is kept when
    the status is unchanged and is the update's otherwise. *)
Definition mergeCondition (existing newCondition : ClusterOperatorStatusCondition)
  : ClusterOperatorStatusCondition :=
  {| cond_Type := cond_Type existing;
     cond_Status := cond_Status newCondition;
     cond_LastTransitionTime :=
       if String.eqb (cond_Status existing) (cond_Status newCondition)
       then cond_LastTransitionTime existing
       else cond_LastTransitionTime newCondition;
     cond_Reason := cond_Reason newCondition;
     cond_Message := cond_Message newCondition |}.

(** Modelled from the spec: [v1helpers.SetStatusCondition] is vendored code
    that is not among the sources.  The spec's merge rule (section 4.2):
    find the existing condition of the same type; if found and the status is
    unchanged keep the old lastTransitionTime, otherwise adopt the update's
    timestamp; if not found, append the update.  Other conditions keep their
    place.  The call sites pass the client's clock as a third argument; the
    rule of the spec never reads it. *)
Fixpoint SetStatusCondition (conditions : list ClusterOperatorStatusCondition)
    (newCondition : ClusterOperatorStatusCondition) (clock : PassiveClock)
  : list ClusterOperatorStatusCondition :=
  match conditions with
  | [] => [newCondition]
  | c :: rest =>
      if String.eqb (cond_Type c) (cond_Type newCondition)
      then mergeCondition c newCondition :: rest
      else c :: SetStatusCondition rest newCondition clock
  end.

(** Modelled from the spec: [v1helpers.RemoveStatusCondition] is vendored
    code that is not among the sources; the spec's [removeCondition(set,
    type)] removes the condition of that type. *)
Definition RemoveStatusCondition (conditions : list ClusterOperatorStatusCondition)
    (conditionType : ClusterStatusConditionType) : list ClusterOperatorStatusCondition :=
  filter (fun c => negb (String.eqb (cond_Type c) conditionType)) conditions.

(** *** The API server and the wall clock *)

(** The requests the client sends, in the order sent. *)
Inductive Call : Type :=
| CallGet (key : string)
| CallCreate (co : ClusterOperator)
| CallStatusUpdate (co : ClusterOperator).

(** The world a transition runs in: the stored ClusterOperator (if any), the
    failure each kind of request meets (if any), the readings of
    [metav1.Now()] with the number of readings taken, and the requests sent
    so far. *)
Record World : Type := mkWorld {
  stored : option ClusterOperator;
  GetErr : option error;
  CreateErr : option error;
  UpdateErr : option error;
  wall : nat -> Time;
  reads : nat;
  calls : list Call
}.

Definition M (A : Type) : Type := World -> A * World.

Definition ret {A : Type} (a : A) : M A := fun w => (a, w).

Definition bind {A B : Type} (m : M A) (k : A -> M B) : M B :=
  fun w => let (a, w') := m w in k a w'.

Declare Scope go_scope.
Delimit Scope go_scope with go.
Notation "x <- m ;; k" := (bind m (fun x => k))
  (at level 100, m at next level, right associativity) : go_scope.
Notation "' pat <- m ;; k" := (bind m (fun x => match x with pat => k end))
  (at level 100, pat pattern, m at next level, right associativity) : go_scope.
Open Scope go_scope.

Definition sent (c : Call) (w : World) : World :=
  mkWorld (stored w) (GetErr w) (CreateErr w) (UpdateErr w) (wall w) (reads w)
          (calls w ++ [c]).

Definition store (co : ClusterOperator) (w : World) : World :=
  mkWorld (Some co) (GetErr w) (CreateErr w) (UpdateErr w) (wall w) (reads w)
          (calls w).

(** [metav1.Now()]: the next reading of the wall clock. *)
Definition metav1_Now : M Time :=
  fun w => (wall w (reads w),
            mkWorld (stored w) (GetErr w) (CreateErr w) (UpdateErr w) (wall w)
                    (S (reads w)) (calls w)).

Definition NewNotFound (name : string) : error :=
  StatusError StatusReasonNotFound
    ("clusteroperators.config.openshift.io " ++ Sprintf_q name ++ " not found")%string.

Definition NewAlreadyExists (name : string) : error :=
  StatusError StatusReasonAlreadyExists
    ("clusteroperators.config.openshift.io " ++ Sprintf_q name ++ " already exists")%string.

(** [r.Get(ctx, key, co)]: fills [co] from the store, or fails and leaves it. *)
Definition client_Get (key : string) (co : ClusterOperator)
  : M (ClusterOperator * option error) :=
  fun w =>
    let w' := sent (CallGet key) w in
    match GetErr w with
    | Some e => ((co, Some e), w')
    | None =>
        match stored w with
        | Some o => ((o, None), w')
        | None => ((co, Some (NewNotFound key)), w')
        end
    end.

(** [r.Create(ctx, co)]. *)
Definition client_Create (co : ClusterOperator) : M (option error) :=
  fun w =>
    let w' := sent (CallCreate co) w in
    match CreateErr w with
    | Some e => (Some e, w')
    | None =>
        match stored w with
        | Some _ => (Some (NewAlreadyExists (Name co)), w')
        | None => (None, store co w')
        end
    end.

(** [r.Status().Update(ctx, co)]: replaces the status of the stored object. *)
Definition client_Status_Update (co : ClusterOperator) : M (option error) :=
  fun w =>
    let w' := sent (CallStatusUpdate co) w in
    match UpdateErr w with
    | Some e => (Some e, w')
    | None =>
        match stored w with
        | Some o => (None, store (mkClusterOperator (Name o) (Status co)) w')
        | None => (Some (NewNotFound (Name co)), w')
        end
    end.

(** *** status.go *)

Definition printOperandVersions (versions : list OperandVersion) : string :=
  let versionsOutput :=
    map (fun operand => (ov_Name operand ++ ": " ++ ov_Version operand)%string) versions in
  strings_Join versionsOutput ", ".

Definition newClusterOperatorStatusCondition (conditionType : ClusterStatusConditionType)
    (conditionStatus : ConditionStatus) (reason : string) (message : string)
  : M ClusterOperatorStatusCondition :=
  now <- metav1_Now ;;
  ret {| cond_Type := conditionType;
         cond_Status := conditionStatus;
         cond_LastTransitionTime := now;
         cond_Reason := reason;
         cond_Message := message |}.

Definition getOrCreateClusterOperator (r : ClusterOperatorStatusClient)
  : M (ClusterOperator + error) :=
  let co := mkClusterOperator clusterOperatorName (mkStatus [] [] []) in
  '(co, err) <- client_Get clusterOperatorName co ;;
  if IsNotFound err then
    err <- client_Create co ;;
    match err with
    | Some err =>
        ret (inr (errors_New ("failed to create cluster operator: " ++ Error err)%string))
    | None => ret (inl co)
    end
  else
    match err with
    | Some err =>
        ret (inr (errors_New ("failed to get clusterOperator "
                              ++ Sprintf_q clusterOperatorName ++ ": " ++ Error err)%string))
    | None => ret (inl co)
    end.

Definition relatedObjects (r : ClusterOperatorStatusClient) : list ObjectReference :=
  [ mkObjectReference "" "namespaces" "" defaultManagementNamespace;
    mkObjectReference GroupName "clusteroperators" "" clusterOperatorName;
    mkObjectReference "" "namespaces" "" (ManagedNamespace r) ].

(** The record syncStatus has computed when it reaches its last line: both
    loops over SetStatusCondition, then the related objects. *)
Definition sync (r : ClusterOperatorStatusClient) (co : ClusterOperator)
    (conds overrides : list ClusterOperatorStatusCondition) : ClusterOperator :=
  let conditions :=
    fold_left (fun cs c => SetStatusCondition cs c (Clock r)) conds
              (Conditions (Status co)) in
  let conditions :=
    fold_left (fun cs c => SetStatusCondition cs c (Clock r)) overrides conditions in
  let related :=
    if negb (Semantic_DeepEqual (RelatedObjects (Status co)) (relatedObjects r))
    then relatedObjects r
    else RelatedObjects (Status co) in
  mkClusterOperator (Name co) (mkStatus conditions (Versions (Status co)) related).

Definition syncStatus (r : ClusterOperatorStatusClient) (co : ClusterOperator)
    (conds overrides : list ClusterOperatorStatusCondition) : M (option error) :=
  client_Status_Update (sync r co conds overrides).

Definition desiredVersions (r : ClusterOperatorStatusClient) : list OperandVersion :=
  [ mkOperandVersion operatorVersionKey (ReleaseVersion r) ].

Definition withVersions (co : ClusterOperator) (versions : list OperandVersion)
  : ClusterOperator :=
  mkClusterOperator (Name co)
    (mkStatus (Conditions (Status co)) versions (RelatedObjects (Status co))).

Definition withConditions (co : ClusterOperator)
    (conditions : list ClusterOperatorStatusCondition) : ClusterOperator :=
  mkClusterOperator (Name co)
    (mkStatus conditions (Versions (Status co)) (RelatedObjects (Status co))).

Section Transitions.

(** The rendering of a [*StatusError] under the verb [%e].  fmt prints such a
    value by reflection over its fields, pointer addresses included, so it
    is not a function of anything modelled here and stays a parameter. *)
Variable StatusError_verb_e : StatusReason -> string -> string.

(** [fmt.Sprintf("%e", err)].  [%e] is a floating-point verb: fmt does not
    call [Error()] for it (it does so for [%v %s %x %X %q] only) and prints
    the dynamic value by reflection.  For a [*errors.errorString], a pointer
    to a struct with one string field, that is [&{] the bad-verb rendering of
    the field [}]. *)
Definition Sprintf_e (err : error) : string :=
  match err with
  | errorString s => ("&{%!e(string=" ++ s ++ ")}")%string
  | StatusError reason message => StatusError_verb_e reason message
  end.

Definition setStatusDegraded (r : ClusterOperatorStatusClient) (reconcileErr : error)
    (overrides : list ClusterOperatorStatusCondition) : M (option error) :=
  res <- getOrCreateClusterOperator r ;;
  match res with
  | inr err => ret (Some err)
  | inl co =>
      let desiredVersions := desiredVersions r in
      let currentVersions := Versions (Status co) in
      let message :=
        if negb (reflect_DeepEqual desiredVersions currentVersions)
        then ("Failed when progressing towards " ++ printOperandVersions desiredVersions
              ++ " because " ++ Sprintf_e reconcileErr)%string
        else ("Failed to resync for " ++ printOperandVersions desiredVersions
              ++ " because " ++ Sprintf_e reconcileErr)%string in
      c1 <- newClusterOperatorStatusCondition OperatorDegraded ConditionTrue
              ReasonSyncFailed message ;;
      c2 <- newClusterOperatorStatusCondition OperatorUpgradeable ConditionFalse
              ReasonAsExpected "" ;;
      syncStatus r co [c1; c2] overrides
  end.

Definition setStatusProgressing (r : ClusterOperatorStatusClient)
    (overrides : list ClusterOperatorStatusCondition) : M (option error) :=
  res <- getOrCreateClusterOperator r ;;
  match res with
  | inr err => ret (Some err)
  | inl co =>
      let desiredVersions := desiredVersions r in
      let currentVersions := Versions (Status co) in
      let '(message, reason) :=
        if negb (reflect_DeepEqual desiredVersions currentVersions)
        then (("Progressing towards " ++ printOperandVersions desiredVersions)%string,
              ReasonSyncing)
        else ("", ReasonAsExpected) in
      c1 <- newClusterOperatorStatusCondition OperatorProgressing ConditionTrue
              reason message ;;
      c2 <- newClusterOperatorStatusCondition OperatorUpgradeable ConditionTrue
              ReasonAsExpected "" ;;
      syncStatus r co [c1; c2] overrides
  end.

Definition setStatusAvailable (r : ClusterOperatorStatusClient)
    (overrides : list ClusterOperatorStatusCondition) : M (option error) :=
  res <- getOrCreateClusterOperator r ;;
  match res with
  | inr err => ret (Some err)
  | inl co =>
      c1 <- newClusterOperatorStatusCondition OperatorAvailable ConditionTrue
              ReasonAsExpected
              ("Cluster Cloud Controller Manager Operator is available at "
               ++ ReleaseVersion r)%string ;;
      c2 <- newClusterOperatorStatusCondition OperatorProgressing ConditionFalse
              ReasonAsExpected "" ;;
      c3 <- newClusterOperatorStatusCondition OperatorDegraded ConditionFalse
              ReasonAsExpected "" ;;
      c4 <- newClusterOperatorStatusCondition OperatorUpgradeable ConditionTrue
              ReasonAsExpected "" ;;
      let co := withVersions co (desiredVersions r) in
      syncStatus r co [c1; c2; c3; c4] overrides
  end.

(** The receiver in the source is the reconciler, which embeds the status
    client; only the embedded part is used. *)
Definition clearCloudControllerOwnerCondition (r : ClusterOperatorStatusClient)
  : M (option error) :=
  res <- getOrCreateClusterOperator r ;;
  match res with
  | inr err => ret (Some err)
  | inl co =>
      match Conditions (Status co) with
      | [] => ret None
      | _ :: _ =>
          match FindStatusCondition (Conditions (Status co))
                  cloudControllerOwnershipCondition with
          | None => ret None
          | Some _ =>
              let co := withConditions co
                          (RemoveStatusCondition (Conditions (Status co))
                             cloudControllerOwnershipCondition) in
              let co := withVersions co (desiredVersions r) in
              syncStatus r co [] []
          end
      end
  end.

(** [GetReleaseVersion], given the process environment ([os.Getenv] returns
    the empty string for a variable that is not set). *)
Definition GetReleaseVersion (os_Getenv : string -> string) : string :=
  let releaseVersion := os_Getenv releaseVersionEnvVariableName in
  if Nat.eqb (String.length releaseVersion) 0 then unknownVersionValue
  else releaseVersion.

(** The four transitions, as one family. *)
Inductive Transition : Type :=
| Degraded (reconcileErr : error) (overrides : list ClusterOperatorStatusCondition)
| Progressing (overrides : list ClusterOperatorStatusCondition)
| Available (overrides : list ClusterOperatorStatusCondition)
| ConditionRemoval.

Definition runTransition (r : ClusterOperatorStatusClient) (t : Transition)
  : M (option error) :=
  match t with
  | Degraded reconcileErr overrides => setStatusDegraded r reconcileErr overrides
  | Progressing overrides => setStatusProgressing r overrides
  | Available overrides => setStatusAvailable r overrides
  | ConditionRemoval => clearCloudControllerOwnerCondition r
  end.

End Transitions.

(** *** Views of the merge used to state and prove its properties *)

(** A batch of updates merged one after the other, as both loops of
    syncStatus do. *)
Definition mergeAll (clock : PassiveClock) (updates conditions : list ClusterOperatorStatusCondition)
  : list ClusterOperatorStatusCondition :=
  fold_left (fun cs c => SetStatusCondition cs c clock) updates conditions.

(** What a batch of updates makes of one existing condition: the updates of
    its type are merged into it in turn, the others pass it by. *)
Definition follow (c : ClusterOperatorStatusCondition)
    (updates : list ClusterOperatorStatusCondition) : ClusterOperatorStatusCondition :=
  fold_left (fun c u => if String.eqb (cond_Type c) (cond_Type u)
                        then mergeCondition c u else c) updates c.

Definition touches (conditionType : ClusterStatusConditionType)
    (updates : list ClusterOperatorStatusCondition) : bool :=
  existsb (fun u => String.eqb conditionType (cond_Type u)) updates.

Definition untouched (conditionType : ClusterStatusConditionType)
    (updates : list ClusterOperatorStatusCondition) : list ClusterOperatorStatusCondition :=
  filter (fun u => negb (String.eqb conditionType (cond_Type u))) updates.

(** The versions and conditions held by the store; a record that does not
    exist yet holds none, as the record created for it does. *)
Definition storedVersions (w : World) : list OperandVersion :=
  match stored w with
  | Some co => Versions (Status co)
  | None => []
  end.

Definition storedConditions (w : World) : list ClusterOperatorStatusCondition :=
  match stored w with
  | Some co => Conditions (Status co)
  | None => []
  end.

(** *** Views of the transitions used to state how they compose *)

Definition overridesOf (t : Transition) : list ClusterOperatorStatusCondition :=
  match t with
  | Degraded _ overrides | Progressing overrides | Available overrides => overrides
  | ConditionRemoval => []
  end.

(** The record a transition passes to syncStatus, for the fetched record
    [co]: only setStatusAvailable and a removal that fires change it first. *)
Definition policyRecord (r : ClusterOperatorStatusClient) (t : Transition)
    (co : ClusterOperator) : ClusterOperator :=
  match t with
  | Available _ => withVersions co (desiredVersions r)
  | ConditionRemoval =>
      withVersions
        (withConditions co
           (RemoveStatusCondition (Conditions (Status co)) cloudControllerOwnershipCondition))
        (desiredVersions r)
  | _ => co
  end.

(** The conditions a transition passes to syncStatus, for the fetched record
    [co], when its successive clock readings are [stamp 0], [stamp 1], ... *)
Definition policyConditions (render : StatusReason -> string -> string)
    (r : ClusterOperatorStatusClient) (t : Transition) (co : ClusterOperator)
    (stamp : nat -> Time) : list ClusterOperatorStatusCondition :=
  match t with
  | Degraded reconcileErr _ =>
      [ mkCondition OperatorDegraded ConditionTrue (stamp 0) ReasonSyncFailed
          (if negb (reflect_DeepEqual (desiredVersions r) (Versions (Status co)))
           then ("Failed when progressing towards " ++ printOperandVersions (desiredVersions r)
                 ++ " because " ++ Sprintf_e render reconcileErr)%string
           else ("Failed to resync for " ++ printOperandVersions (desiredVersions r)
                 ++ " because " ++ Sprintf_e render reconcileErr)%string);
        mkCondition OperatorUpgradeable ConditionFalse (stamp 1) ReasonAsExpected "" ]
  | Progressing _ =>
      [ mkCondition OperatorProgressing ConditionTrue (stamp 0)
          (if negb (reflect_DeepEqual (desiredVersions r) (Versions (Status co)))
           then ReasonSyncing else ReasonAsExpected)
          (if negb (reflect_DeepEqual (desiredVersions r) (Versions (Status co)))
           then ("Progressing towards " ++ printOperandVersions (desiredVersions r))%string
           else "");
        mkCondition OperatorUpgradeable ConditionTrue (stamp 1) ReasonAsExpected "" ]
  | Available _ =>
      [ mkCondition OperatorAvailable ConditionTrue (stamp 0) ReasonAsExpected
          ("Cluster Cloud Controller Manager Operator is available at "
           ++ ReleaseVersion r)%string;
        mkCondition OperatorProgressing ConditionFalse (stamp 1) ReasonAsExpected "";
        mkCondition OperatorDegraded ConditionFalse (stamp 2) ReasonAsExpected "";
        mkCondition OperatorUpgradeable ConditionTrue (stamp 3) ReasonAsExpected "" ]
  | ConditionRemoval => []
  end.

(** Whether a transition reaches syncStatus once it has fetched [co]. *)
Definition reachesSync (t : Transition) (co : ClusterOperator) : bool :=
  match t with
  | ConditionRemoval =>
      match FindStatusCondition (Conditions (Status co)) cloudControllerOwnershipCondition with
      | Some _ => true
      | None => false
      end
  | _ => true
  end.

(** The record a transition leaves in the store when it succeeds. *)
Definition settled (render : StatusReason -> string -> string)
    (r : ClusterOperatorStatusClient) (t : Transition) (co : ClusterOperator)
    (stamp : nat -> Time) : ClusterOperator :=
  if reachesSync t co
  then sync r (policyRecord r t co) (policyConditions render r t co stamp) (overridesOf t)
  else co.

(** The world after [n] more readings of the clock. *)
Definition afterReadings (n : nat) (w : World) : World :=
  Nat.iter n (fun w => snd (metav1_Now w)) w.

(** A condition list holds type [T] with the given status, reason and
    message (whatever the transition time). *)
Definition holds (conditions : list ClusterOperatorStatusCondition)
    (T : ClusterStatusConditionType) (status : ConditionStatus) (reason message : string)
  : Prop :=
  exists c, FindStatusCondition conditions T = Some c /\
            cond_Status c = status /\ cond_Reason c = reason /\ cond_Message c = message.

Definition readingsOf (t : Transition) : nat :=
  match t with
  | Degraded _ _ | Progressing _ => 2
  | Available _ => 4
  | ConditionRemoval => 0
  end.

(** Two conditions that differ at most in their timestamp; two batches that
    do so position by position. *)
Definition sameButTime (p p' : ClusterOperatorStatusCondition) : Prop :=
  cond_Type p = cond_Type p' /\ cond_Status p = cond_Status p' /\
  cond_Reason p = cond_Reason p' /\ cond_Message p = cond_Message p'.

Definition restamped (ps ps' : list ClusterOperatorStatusCondition) : Prop :=
  Forall2 sameButTime ps ps'.

End controllers.

(* ===================================================================== *)
(** ** Package util: the trust-bundle PEM utility *)
(* ===================================================================== *)

Module util.

Definition certPEMBlock : string := "CERTIFICATE".
Definition trustedCABundleConfigMapKey : string := "ca-bundle.crt".

(** [pem.Block], without the headers (the code reads the type and the bytes). *)
Record Block : Type := mkBlock {
  block_Type : string;
  block_Bytes : list Byte.byte
}.

(** Matching on a computed value while keeping the equation that names it. *)
Definition inspect {A : Type} (a : A) : {b : A | a = b} := exist _ a eq_refl.

Section CertificateData.

(** [*x509.Certificate], and the two standard-library functions the loop
    calls.  [pem.Decode] returns the next block, if it finds one, and the
    rest of the input; when it finds a block the rest is shorter than the
    input, which is what makes the loop end. *)
Variable Certificate : Type.
Variable pem_Decode : list Byte.byte -> option Block * list Byte.byte.
Variable x509_ParseCertificate : list Byte.byte -> Certificate + error.
Hypothesis pem_Decode_consumes : forall data block rest,
  pem_Decode data = (Some block, rest) -> length rest < length data.

(** The loop of CertificateData, from the state ([certData], [certBundle]). *)
Equations? CertificateData_loop (certData : list Byte.byte) (certBundle : list Certificate)
  : list Certificate + error by wf (length certData) lt :=
  CertificateData_loop [] certBundle := inl certBundle;
  CertificateData_loop (b :: bs) certBundle with inspect (pem_Decode (b :: bs)) := {
    | exist _ (None, _) _ := inr (errors_New "failed to parse certificate PEM");
    | exist _ (Some block, rest) Hdec with String.eqb (block_Type block) certPEMBlock := {
      | false := inr (errors_New ("invalid certificate PEM, must be of type "
                                  ++ Sprintf_q certPEMBlock)%string);
      | true with x509_ParseCertificate (block_Bytes block) := {
        | inr err := inr (errors_New ("failed to parse certificate: " ++ Error err)%string);
        | inl cert := CertificateData_loop rest (certBundle ++ [cert]) } } }.
Proof.
  exact (pem_Decode_consumes _ _ _ Hdec).
Defined.

Definition CertificateData (certData : list Byte.byte) : list Certificate + error :=
  CertificateData_loop certData [].

(** What the loop meets on an input, in the words of the specification: every block
    of the input decodes, is a certificate block and parses ([AllBlocksGood],
    with the certificates in input order), or some block does not
    ([SomeBlockBad]). *)
Inductive AllBlocksGood : list Byte.byte -> list Certificate -> Prop :=
| Good_end : AllBlocksGood [] []
| Good_block : forall data block rest cert certs,
    data <> [] ->
    pem_Decode data = (Some block, rest) ->
    block_Type block = certPEMBlock ->
    x509_ParseCertificate (block_Bytes block) = inl cert ->
    AllBlocksGood rest certs ->
    AllBlocksGood data (cert :: certs).

Inductive SomeBlockBad : list Byte.byte -> Prop :=
| Bad_decode : forall data rest,
    data <> [] -> pem_Decode data = (None, rest) -> SomeBlockBad data
| Bad_type : forall data block rest,
    data <> [] -> pem_Decode data = (Some block, rest) ->
    block_Type block <> certPEMBlock -> SomeBlockBad data
| Bad_parse : forall data block rest err,
    data <> [] -> pem_Decode data = (Some block, rest) ->
    block_Type block = certPEMBlock ->
    x509_ParseCertificate (block_Bytes block) = inr err -> SomeBlockBad data
| Bad_later : forall data block rest cert,
    data <> [] -> pem_Decode data = (Some block, rest) ->
    block_Type block = certPEMBlock ->
    x509_ParseCertificate (block_Bytes block) = inl cert ->
    SomeBlockBad rest -> SomeBlockBad data.

End CertificateData.

(** [corev1.ConfigMap], as far as TrustBundleConfigMap reads it: the name and
    the lookup in the [Data] map. *)
Record ConfigMap : Type := mkConfigMap {
  cm_Name : string;
  cm_Data : string -> option string
}.

Section TrustBundle.

Variable Certificate : Type.
Variable pem_Decode : list Byte.byte -> option Block * list Byte.byte.
Variable x509_ParseCertificate : list Byte.byte -> Certificate + error.
Hypothesis pem_Decode_consumes : forall data block rest,
  pem_Decode data = (Some block, rest) -> length rest < length data.

(** The verb [%q] on an arbitrary string ([strconv.Quote], with its escapes):
    a standard-library function, taken as a parameter. *)
Variable strconv_Quote : string -> string.

(** The result is the certificates and the bundle bytes, or the error. *)
Definition TrustBundleConfigMap (cfgMap : ConfigMap)
  : (list Certificate * list Byte.byte) + error :=
  match cm_Data cfgMap trustedCABundleConfigMapKey with
  | None =>
      inr (errors_New ("ConfigMap " ++ strconv_Quote (cm_Name cfgMap) ++ " is missing "
                       ++ Sprintf_q trustedCABundleConfigMapKey)%string)
  | Some value =>
      let trustBundleData := list_byte_of_string value in
      if Nat.eqb (length trustBundleData) 0
      then inr (errors_New ("data key " ++ Sprintf_q trustedCABundleConfigMapKey
                            ++ " is empty from ConfigMap "
                            ++ strconv_Quote (cm_Name cfgMap))%string)
      else
        match CertificateData Certificate pem_Decode x509_ParseCertificate
                pem_Decode_consumes trustBundleData with
        | inr err =>
            inr (errors_New ("failed parsing certificate data from ConfigMap "
                             ++ strconv_Quote (cm_Name cfgMap) ++ ": " ++ Error err)%string)
        | inl certBundle => inl (certBundle, trustBundleData)
        end
  end.

End TrustBundle.

End util.

(* ===================================================================== *)
(** ** Concrete clients, records and worlds used in the examples *)
(* ===================================================================== *)

Module fixtures.

Import controllers.

Local Open Scope Z_scope.

(** A client and a record that is already in sync, for the examples. *)
Definition exampleClient : ClusterOperatorStatusClient :=
  mkClient (mkClock 0) "openshift-cloud-controller-manager" "4.16.0".

Definition settledRecord : ClusterOperator :=
  mkClusterOperator clusterOperatorName
    (mkStatus [] (desiredVersions exampleClient) (relatedObjects exampleClient)).

Definition quietWorld (co : option ClusterOperator) : World :=
  mkWorld co None None None (fun _ => 100) 0 [].

Definition upgradeableAt (status : ConditionStatus) (t : Time) (reason : string)
  : ClusterOperatorStatusCondition :=
  mkCondition OperatorUpgradeable status t reason "".

(** The record getOrCreateClusterOperator creates when none is stored. *)
Definition freshRecord : ClusterOperator :=
  mkClusterOperator clusterOperatorName (mkStatus [] [] []).

(** A world whose reads fail with [e] / whose status updates fail with [e]. *)
Definition failingGet (e : error) (co : option ClusterOperator) : World :=
  mkWorld co (Some e) None None (fun _ => 100) 0 [].

Definition failingUpdate (e : error) (co : option ClusterOperator) : World :=
  mkWorld co None None (Some e) (fun _ => 100) 0 [].

Definition failingCreate (e : error) : World :=
  mkWorld None None (Some e) None (fun _ => 100) 0 [].

(** A record that still holds the condition the removal transition retires. *)
Definition legacyRecord : ClusterOperator :=
  mkClusterOperator clusterOperatorName
    (mkStatus [mkCondition cloudControllerOwnershipCondition ConditionTrue 5 ReasonAsExpected ""]
              [] []).

(** A world whose clock moves on with every reading. *)
Definition tickingWorld (co : option ClusterOperator) : World :=
  mkWorld co None None None (fun n => Z.of_nat n) 0 [].

(** A record left behind by a Degraded transition, with one condition owned
    by someone else. *)
Definition degradedRecord : ClusterOperator :=
  mkClusterOperator clusterOperatorName
    (mkStatus [ mkCondition OperatorAvailable ConditionTrue 1 ReasonAsExpected "";
                mkCondition OperatorDegraded ConditionTrue 2 ReasonSyncFailed "boom";
                mkCondition "EvaluationConditionsDetected" ConditionUnknown 3 "NoData" "" ]
              [] []).

(** A stand-in for the rendering of API errors under [%e]. *)
Definition plainRendering (reason : StatusReason) (message : string) : string := message.

(** A toy decoder and parser for the PEM utility: every input byte is one
    certificate block, and the certificate is the block's bytes. *)
Definition byteBlocks (data : list Byte.byte) : option util.Block * list Byte.byte :=
  match data with
  | [] => (None, [])
  | b :: rest => (Some (util.mkBlock util.certPEMBlock [b]), rest)
  end.

Definition bytesAsCertificate (der : list Byte.byte) : list Byte.byte + error := inl der.

(** A ConfigMap with a two-byte bundle under the trust-bundle key. *)
Definition trustedCA : util.ConfigMap :=
  util.mkConfigMap "trusted-ca-bundle"
    (fun key => if String.eqb key "ca-bundle.crt" then Some "AB" else None).

End fixtures.

(* ===================================================================== *)
(** ** Properties of the condition merge *)
(* ===================================================================== *)

Module merge_facts.

Import controllers.

Lemma slice_eqb_eq {A : Type} (eqb : A -> A -> bool) :
  (forall x y, eqb x y = true <-> x = y) ->
  forall xs ys, slice_eqb eqb xs ys = true <-> xs = ys.
Proof.
  intros Heqb xs. induction xs as [|x xs IH]; intros [|y ys]; simpl;
    try (split; [discriminate | discriminate]); try tauto.
  rewrite andb_true_iff, Heqb, IH. split.
  - intros [-> ->]. reflexivity.
  - intros H. injection H as -> ->. auto.
Qed.

Lemma OperandVersion_eqb_eq (a b : OperandVersion) :
  OperandVersion_eqb a b = true <-> a = b.
Proof.
  destruct a as [n v], b as [n' v']. unfold OperandVersion_eqb. simpl.
  rewrite andb_true_iff, !String.eqb_eq. split.
  - intros [-> ->]. reflexivity.
  - intros H. injection H as -> ->. auto.
Qed.

Lemma ObjectReference_eqb_eq (a b : ObjectReference) :
  ObjectReference_eqb a b = true <-> a = b.
Proof.
  destruct a as [g s n m], b as [g' s' n' m']. unfold ObjectReference_eqb. simpl.
  rewrite !andb_true_iff, !String.eqb_eq. split.
  - intros [[[-> ->] ->] ->]. reflexivity.
  - intros H. injection H as -> -> -> ->. auto.
Qed.

Lemma reflect_DeepEqual_eq (a b : list OperandVersion) :
  reflect_DeepEqual a b = true <-> a = b.
Proof. apply slice_eqb_eq, OperandVersion_eqb_eq. Qed.

Lemma Semantic_DeepEqual_eq (a b : list ObjectReference) :
  Semantic_DeepEqual a b = true <-> a = b.
Proof. apply slice_eqb_eq, ObjectReference_eqb_eq. Qed.

Lemma Semantic_DeepEqual_refl (a : list ObjectReference) :
  Semantic_DeepEqual a a = true.
Proof. apply Semantic_DeepEqual_eq. reflexivity. Qed.

(** **** One update *)

Lemma mergeCondition_self (u : ClusterOperatorStatusCondition) :
  mergeCondition u u = u.
Proof.
  destruct u. unfold mergeCondition. simpl. rewrite String.eqb_refl. reflexivity.
Qed.

Lemma mergeCondition_Type (c u : ClusterOperatorStatusCondition) :
  cond_Type (mergeCondition c u) = cond_Type c.
Proof. reflexivity. Qed.

Lemma Find_Set (clock : PassiveClock) (T : ClusterStatusConditionType)
    (u : ClusterOperatorStatusCondition) (cs : list ClusterOperatorStatusCondition) :
  FindStatusCondition (SetStatusCondition cs u clock) T =
  if String.eqb (cond_Type u) T
  then Some (match FindStatusCondition cs T with
             | Some c => mergeCondition c u
             | None => u
             end)
  else FindStatusCondition cs T.
Proof.
  induction cs as [|c cs IH]; simpl.
  - reflexivity.
  - destruct (String.eqb_spec (cond_Type c) (cond_Type u)) as [Hcu|Hcu]; simpl.
    + rewrite Hcu. destruct (String.eqb (cond_Type u) T); reflexivity.
    + destruct (String.eqb_spec (cond_Type c) T) as [HcT|HcT].
      * destruct (String.eqb_spec (cond_Type u) T) as [HuT|HuT]; [congruence | reflexivity].
      * exact IH.
Qed.

(** **** A batch of updates, seen from one condition *)

Lemma follow_Type (us : list ClusterOperatorStatusCondition) :
  forall c, cond_Type (follow c us) = cond_Type c.
Proof.
  unfold follow. induction us as [|u us IH]; intros c; simpl.
  - reflexivity.
  - rewrite IH. destruct (String.eqb (cond_Type c) (cond_Type u)); reflexivity.
Qed.

Lemma follow_snoc (c u : ClusterOperatorStatusCondition) us :
  follow c (us ++ [u]) =
  if String.eqb (cond_Type c) (cond_Type u)
  then mergeCondition (follow c us) u else follow c us.
Proof.
  unfold follow at 1. rewrite fold_left_app. simpl. fold (follow c us).
  rewrite follow_Type. reflexivity.
Qed.

Lemma follow_untouched us :
  forall c, touches (cond_Type c) us = false -> follow c us = c.
Proof.
  unfold follow, touches. induction us as [|u us IH]; intros c H; simpl in *.
  - reflexivity.
  - apply orb_false_iff in H as [Hu Hus]. rewrite Hu. apply IH, Hus.
Qed.

Lemma follow_Status_same us :
  forall x y, cond_Type x = cond_Type y -> cond_Status x = cond_Status y ->
    cond_Status (follow x us) = cond_Status (follow y us).
Proof.
  unfold follow. induction us as [|u us IH]; intros x y HT HS; simpl.
  - exact HS.
  - rewrite <- HT. destruct (String.eqb (cond_Type x) (cond_Type u)).
    + apply IH; reflexivity || (simpl; congruence).
    + apply IH; assumption.
Qed.

Lemma follow_Status_touched us :
  forall x y, cond_Type x = cond_Type y -> touches (cond_Type x) us = true ->
    cond_Status (follow x us) = cond_Status (follow y us).
Proof.
  induction us as [|u us IH]; intros x y HT Hus; simpl in *.
  - discriminate.
  - unfold follow. simpl. rewrite <- HT.
    destruct (String.eqb (cond_Type x) (cond_Type u)) eqn:Hu.
    + apply follow_Status_same; simpl; congruence.
    + apply IH; assumption.
Qed.

(** Two conditions that agree on type, status and transition time still do
    after the same updates. *)
Lemma follow_same_transition us :
  forall x y, cond_Type x = cond_Type y -> cond_Status x = cond_Status y ->
    cond_LastTransitionTime x = cond_LastTransitionTime y ->
    cond_LastTransitionTime (follow x us) = cond_LastTransitionTime (follow y us).
Proof.
  unfold follow. induction us as [|u us IH]; intros x y HT HS Ht; simpl.
  - exact Ht.
  - rewrite <- HT. destruct (String.eqb (cond_Type x) (cond_Type u)).
    + apply IH; simpl; try congruence. rewrite <- HS, Ht. reflexivity.
    + apply IH; assumption.
Qed.

Lemma mergeCondition_ext (a b u : ClusterOperatorStatusCondition) :
  cond_Type a = cond_Type b ->
  (if String.eqb (cond_Status a) (cond_Status u)
   then cond_LastTransitionTime a else cond_LastTransitionTime u) =
  (if String.eqb (cond_Status b) (cond_Status u)
   then cond_LastTransitionTime b else cond_LastTransitionTime u) ->
  mergeCondition a u = mergeCondition b u.
Proof. unfold mergeCondition. intros -> ->. reflexivity. Qed.

(** Running the same updates again leaves a condition as the first run made
    it. *)
Lemma follow_idempotent us :
  forall c, follow (follow c us) us = follow c us.
Proof.
  induction us as [|u us IH] using rev_ind; intros c.
  - reflexivity.
  - rewrite (follow_snoc c). destruct (String.eqb (cond_Type c) (cond_Type u)) eqn:Hu.
    + rewrite follow_snoc. simpl. rewrite follow_Type, Hu.
      remember (follow c us) as d0 eqn:Hd0.
      remember (mergeCondition d0 u) as d eqn:Hd.
      assert (HTd : cond_Type d = cond_Type d0) by (subst d; reflexivity).
      assert (HTc : cond_Type d0 = cond_Type c) by (subst d0; apply follow_Type).
      rewrite Hd at 2. apply mergeCondition_ext.
      { rewrite follow_Type. exact HTd. }
      destruct (String.eqb_spec (cond_Status d0) (cond_Status u)) as [Hs|Hs].
      * assert (HS : cond_Status d = cond_Status d0) by (subst d; simpl; congruence).
        assert (Ht : cond_LastTransitionTime d = cond_LastTransitionTime d0).
        { subst d. unfold mergeCondition. simpl. rewrite Hs, String.eqb_refl. reflexivity. }
        rewrite (follow_Status_same us d d0 HTd HS).
        rewrite (follow_same_transition us d d0 HTd HS Ht).
        assert (Hfix : follow d0 us = d0) by (subst d0; apply IH).
        rewrite Hfix, Hs, String.eqb_refl. reflexivity.
      * destruct (touches (cond_Type d) us) eqn:Htouch.
        -- rewrite (follow_Status_touched us d c); [| congruence | exact Htouch].
           rewrite <- Hd0.
           destruct (String.eqb_spec (cond_Status d0) (cond_Status u)); [contradiction | reflexivity].
        -- rewrite (follow_untouched us d Htouch).
           subst d. unfold mergeCondition. simpl. rewrite String.eqb_refl.
           destruct (String.eqb_spec (cond_Status d0) (cond_Status u)); [contradiction | reflexivity].
    + rewrite follow_snoc, follow_Type, Hu. apply IH.
Qed.

(** **** A batch of updates, on the whole list *)

Lemma mergeAll_app clock us vs cs :
  mergeAll clock (us ++ vs) cs = mergeAll clock vs (mergeAll clock us cs).
Proof. unfold mergeAll. apply fold_left_app. Qed.

(** The head of the list follows the updates of its type; the rest of the
    list sees the other updates. *)
Lemma mergeAll_cons clock us :
  forall c cs,
    mergeAll clock us (c :: cs) =
    follow c us :: mergeAll clock (untouched (cond_Type c) us) cs.
Proof.
  induction us as [|u us IH]; intros c cs.
  - reflexivity.
  - change (mergeAll clock (u :: us) (c :: cs))
      with (mergeAll clock us (SetStatusCondition (c :: cs) u clock)).
    change (follow c (u :: us))
      with (follow (if String.eqb (cond_Type c) (cond_Type u)
                    then mergeCondition c u else c) us).
    simpl. destruct (String.eqb (cond_Type c) (cond_Type u)); simpl.
    + rewrite IH. reflexivity.
    + rewrite IH. reflexivity.
Qed.

Lemma mergeAll_nil clock u us :
  mergeAll clock (u :: us) [] =
  follow u (u :: us) :: mergeAll clock (untouched (cond_Type u) (u :: us)) [].
Proof.
  change (mergeAll clock (u :: us) []) with (mergeAll clock us [u]).
  rewrite mergeAll_cons.
  unfold follow at 2. simpl. rewrite String.eqb_refl, mergeCondition_self. simpl.
  reflexivity.
Qed.

Lemma untouched_length T us : length (untouched T us) <= length us.
Proof.
  unfold untouched. induction us as [|u us IH]; simpl.
  - lia.
  - destruct (negb (String.eqb T (cond_Type u))); simpl; lia.
Qed.

Lemma mergeAll_idempotent_bounded clock (n : nat) :
  forall us cs, length us + length cs <= n ->
    mergeAll clock us (mergeAll clock us cs) = mergeAll clock us cs.
Proof.
  induction n as [|n IH]; intros us cs Hn.
  - destruct us, cs; simpl in Hn; try lia. reflexivity.
  - destruct cs as [|c cs].
    + destruct us as [|u us]; [reflexivity|].
      rewrite mergeAll_nil, mergeAll_cons, follow_idempotent, follow_Type.
      f_equal. apply IH.
      simpl. rewrite String.eqb_refl. simpl.
      pose proof (untouched_length (cond_Type u) us). simpl in Hn. lia.
    + rewrite !mergeAll_cons, follow_idempotent, follow_Type.
      f_equal. apply IH.
      pose proof (untouched_length (cond_Type c) us). simpl in Hn. lia.
Qed.

Lemma mergeAll_idempotent clock us cs :
  mergeAll clock us (mergeAll clock us cs) = mergeAll clock us cs.
Proof. apply (mergeAll_idempotent_bounded clock (length us + length cs)). lia. Qed.

(** **** Looking a type up after a batch *)

Lemma Find_Type cs :
  forall T c, FindStatusCondition cs T = Some c -> cond_Type c = T.
Proof.
  induction cs as [|x cs IH]; intros T c H; simpl in H.
  - discriminate.
  - destruct (String.eqb_spec (cond_Type x) T) as [HxT|HxT].
    + injection H as <-. exact HxT.
    + eapply IH, H.
Qed.

Lemma Find_mergeAll_untouched clock T us :
  forall cs, touches T us = false ->
    FindStatusCondition (mergeAll clock us cs) T = FindStatusCondition cs T.
Proof.
  induction us as [|u us IH]; intros cs H.
  - reflexivity.
  - simpl in H. apply orb_false_iff in H as [Hu Hus].
    change (mergeAll clock (u :: us) cs)
      with (mergeAll clock us (SetStatusCondition cs u clock)).
    rewrite IH by exact Hus. rewrite Find_Set.
    rewrite String.eqb_sym, Hu. reflexivity.
Qed.

Lemma Find_mergeAll_found clock T us :
  forall cs c, FindStatusCondition cs T = Some c ->
    FindStatusCondition (mergeAll clock us cs) T = Some (follow c us).
Proof.
  induction us as [|u us IH]; intros cs c H.
  - exact H.
  - change (mergeAll clock (u :: us) cs)
      with (mergeAll clock us (SetStatusCondition cs u clock)).
    change (follow c (u :: us))
      with (follow (if String.eqb (cond_Type c) (cond_Type u)
                    then mergeCondition c u else c) us).
    apply IH. rewrite Find_Set, H, (Find_Type cs T c H), String.eqb_sym.
    destruct (String.eqb T (cond_Type u)); reflexivity.
Qed.

(** The last update of a type decides status, reason and message. *)
Lemma Find_mergeAll_last clock T us o vs cs :
  cond_Type o = T -> touches T vs = false ->
  exists c, FindStatusCondition (mergeAll clock (us ++ o :: vs) cs) T = Some c
            /\ cond_Status c = cond_Status o
            /\ cond_Reason c = cond_Reason o
            /\ cond_Message c = cond_Message o.
Proof.
  intros HT Hvs. rewrite mergeAll_app.
  change (mergeAll clock (o :: vs) (mergeAll clock us cs))
    with (mergeAll clock vs (SetStatusCondition (mergeAll clock us cs) o clock)).
  rewrite Find_mergeAll_untouched by exact Hvs.
  rewrite Find_Set, HT, String.eqb_refl.
  destruct (FindStatusCondition (mergeAll clock us cs) T);
    eexists; split; try reflexivity; simpl; auto.
Qed.

(** **** The transition time after a batch *)

Lemma follow_same_status us :
  forall c,
    (forall u, In u us -> cond_Type u = cond_Type c -> cond_Status u = cond_Status c) ->
    cond_Status (follow c us) = cond_Status c /\
    cond_LastTransitionTime (follow c us) = cond_LastTransitionTime c.
Proof.
  unfold follow. induction us as [|u us IH]; intros c H; simpl.
  - auto.
  - destruct (String.eqb_spec (cond_Type c) (cond_Type u)) as [Hu|Hu].
    + assert (Hs : cond_Status u = cond_Status c) by (apply H; simpl; auto).
      destruct (IH (mergeCondition c u)) as [IHs IHt].
      { intros v Hv HvT. simpl in *. rewrite Hs. apply H; auto. }
      rewrite IHs, IHt. simpl. rewrite Hs, String.eqb_refl. auto.
    + apply IH. intros v Hv HvT. apply H; simpl; auto.
Qed.

Lemma follow_time_source us :
  forall c,
    cond_LastTransitionTime (follow c us) = cond_LastTransitionTime c \/
    exists u, In u us /\ cond_Type u = cond_Type c /\
              cond_LastTransitionTime (follow c us) = cond_LastTransitionTime u.
Proof.
  unfold follow. induction us as [|u us IH]; intros c; simpl.
  - auto.
  - destruct (String.eqb_spec (cond_Type c) (cond_Type u)) as [Hu|Hu].
    + destruct (IH (mergeCondition c u)) as [IHt | [v [Hv [HvT IHt]]]].
      * rewrite IHt. simpl.
        destruct (String.eqb (cond_Status c) (cond_Status u)); [auto|].
        right. exists u. auto.
      * right. exists v. simpl in HvT. auto.
    + destruct (IH c) as [IHt | [v [Hv [HvT IHt]]]]; [auto|].
      right. exists v. auto.
Qed.

End merge_facts.

(* ===================================================================== *)
(** ** The sync orchestrator *)
(* ===================================================================== *)

Module sync_facts.

Import controllers merge_facts fixtures.

Local Open Scope Z_scope.

Lemma sync_Conditions r co conds overrides :
  Conditions (Status (sync r co conds overrides)) =
  mergeAll (Clock r) (conds ++ overrides) (Conditions (Status co)).
Proof. unfold sync. simpl. rewrite mergeAll_app. reflexivity. Qed.

Lemma sync_Versions r co conds overrides :
  Versions (Status (sync r co conds overrides)) = Versions (Status co).
Proof. reflexivity. Qed.

Lemma sync_RelatedObjects r co conds overrides :
  RelatedObjects (Status (sync r co conds overrides)) = relatedObjects r.
Proof.
  unfold sync. simpl.
  destruct (Semantic_DeepEqual (RelatedObjects (Status co)) (relatedObjects r)) eqn:E; simpl.
  - apply Semantic_DeepEqual_eq, E.
  - reflexivity.
Qed.

Lemma sync_eq r co conds overrides :
  sync r co conds overrides =
  mkClusterOperator (Name co)
    (mkStatus (mergeAll (Clock r) (conds ++ overrides) (Conditions (Status co)))
              (Versions (Status co)) (relatedObjects r)).
Proof.
  rewrite <- sync_Conditions, <- (sync_RelatedObjects r co conds overrides).
  reflexivity.
Qed.

(** C1, as stated, fails: syncStatus sends the update although the record it
    computed is the stored record (here a record already in sync, with no
    condition to merge). *)
Lemma syncStatus_persists_unchanged_record :
  ~ (forall r co conds overrides w,
       stored w = Some co ->
       sync r co conds overrides = co ->
       calls (snd (syncStatus r co conds overrides w)) = calls w).
Proof.
  intros H.
  specialize (H exampleClient settledRecord [] [] (quietWorld (Some settledRecord))
                eq_refl eq_refl).
  vm_compute in H. discriminate H.
Qed.

(** C1, amended: every call of syncStatus sends exactly one status update,
    carrying the record it computed, whether or not that record differs
    from the stored one. *)
Theorem syncStatus_always_persists r co conds overrides w :
  calls (snd (syncStatus r co conds overrides w)) =
  calls w ++ [CallStatusUpdate (sync r co conds overrides)].
Proof.
  unfold syncStatus, client_Status_Update.
  destruct (UpdateErr w); [reflexivity|].
  destruct (stored w); reflexivity.
Qed.

(** C2: sync is idempotent.  Running the sync computation again on its own
    result, with the same policy conditions and overrides, returns that
    result. *)
Theorem sync_idempotent r co conds overrides :
  sync r (sync r co conds overrides) conds overrides = sync r co conds overrides.
Proof.
  rewrite (sync_eq r (sync r co conds overrides)).
  rewrite sync_Conditions, sync_Versions, mergeAll_idempotent.
  rewrite (sync_eq r co). reflexivity.
Qed.

(** C3, as stated, fails: a policy condition that flips the stored status
    and an override that flips it back leave the status as stored and still
    move lastTransitionTime (here from 5 to 10). *)
Lemma sync_restamps_on_flip_back :
  ~ (forall r co conds overrides T c c',
       FindStatusCondition (Conditions (Status co)) T = Some c ->
       FindStatusCondition (Conditions (Status (sync r co conds overrides))) T = Some c' ->
       (cond_Status c' = cond_Status c ->
        cond_LastTransitionTime c' = cond_LastTransitionTime c) /\
       (cond_Status c' <> cond_Status c ->
        cond_LastTransitionTime c <= cond_LastTransitionTime c')).
Proof.
  intros H.
  specialize (H exampleClient
                (mkClusterOperator clusterOperatorName
                   (mkStatus [upgradeableAt ConditionFalse 5 "Stored"] [] []))
                [upgradeableAt ConditionTrue 10 ReasonAsExpected]
                [upgradeableAt ConditionFalse 10 "Override"]
                OperatorUpgradeable
                (upgradeableAt ConditionFalse 5 "Stored")
                (upgradeableAt ConditionFalse 10 "Override")
                eq_refl eq_refl).
  destruct H as [H _]. specialize (H eq_refl). discriminate H.
Qed.

(** C3, amended: for a condition type the record holds, a sync leaves
    lastTransitionTime (and the status) as stored when every policy and
    override condition of that type carries the stored status, whatever
    their reason and message; in any case the new timestamp is the stored
    one or the timestamp of one of the sync's conditions of that type, so it
    is no earlier than the stored one when none of those is. *)
Theorem sync_transition_time r co conds overrides T c :
  FindStatusCondition (Conditions (Status co)) T = Some c ->
  exists c',
    FindStatusCondition (Conditions (Status (sync r co conds overrides))) T = Some c' /\
    ((forall u, In u (conds ++ overrides) -> cond_Type u = T ->
                cond_Status u = cond_Status c) ->
     cond_Status c' = cond_Status c /\
     cond_LastTransitionTime c' = cond_LastTransitionTime c) /\
    (cond_LastTransitionTime c' = cond_LastTransitionTime c \/
     exists u, In u (conds ++ overrides) /\ cond_Type u = T /\
               cond_LastTransitionTime c' = cond_LastTransitionTime u) /\
    ((forall u, In u (conds ++ overrides) -> cond_Type u = T ->
                cond_LastTransitionTime c <= cond_LastTransitionTime u) ->
     cond_LastTransitionTime c <= cond_LastTransitionTime c').
Proof.
  intros HF. pose proof (Find_Type _ _ _ HF) as HT.
  exists (follow c (conds ++ overrides)).
  rewrite sync_Conditions, (Find_mergeAll_found _ _ _ _ _ HF).
  split; [reflexivity|]. split; [|split].
  - intros Hsame. apply follow_same_status. intros u Hu HuT.
    apply Hsame; congruence.
  - destruct (follow_time_source (conds ++ overrides) c) as [Ht | [u [Hu [HuT Ht]]]].
    + left. exact Ht.
    + right. exists u. repeat split; congruence.
  - intros Hlater.
    destruct (follow_time_source (conds ++ overrides) c) as [Ht | [u [Hu [HuT Ht]]]].
    + rewrite Ht. lia.
    + rewrite Ht. apply Hlater; congruence.
Qed.

Lemma sync_transition_time_witness :
  exists c',
    FindStatusCondition
      (Conditions (Status (sync exampleClient
         (mkClusterOperator clusterOperatorName
            (mkStatus [upgradeableAt ConditionFalse 5 "Stored"] [] []))
         [upgradeableAt ConditionFalse 10 ReasonAsExpected] [])))
      OperatorUpgradeable = Some c' /\
    cond_LastTransitionTime c' = 5 /\ cond_Reason c' = ReasonAsExpected.
Proof.
  destruct (sync_transition_time exampleClient
              (mkClusterOperator clusterOperatorName
                 (mkStatus [upgradeableAt ConditionFalse 5 "Stored"] [] []))
              [upgradeableAt ConditionFalse 10 ReasonAsExpected] []
              OperatorUpgradeable (upgradeableAt ConditionFalse 5 "Stored") eq_refl)
    as [c' [HF [Hsame _]]].
  exists c'. split; [exact HF|]. split.
  - apply Hsame. intros u [<-|[]] _. reflexivity.
  - vm_compute in HF. injection HF as <-. reflexivity.
Defined.

(** C4: overrides take precedence.  When a policy condition sets type T to
    one status and the override for T (the last condition of that type in
    the override list) sets another, the synced record holds T with the
    override's status, reason and message; the conditions of the synced
    record are the overrides merged into the result of merging the policy
    conditions. *)
Theorem override_precedence r co conds before o after p T :
  In p conds -> cond_Type p = T ->
  cond_Type o = T -> cond_Status p <> cond_Status o ->
  touches T after = false ->
  (exists c,
     FindStatusCondition
       (Conditions (Status (sync r co conds (before ++ o :: after)))) T = Some c /\
     cond_Status c = cond_Status o /\
     cond_Reason c = cond_Reason o /\
     cond_Message c = cond_Message o) /\
  Conditions (Status (sync r co conds (before ++ o :: after))) =
  mergeAll (Clock r) (before ++ o :: after)
    (mergeAll (Clock r) conds (Conditions (Status co))).
Proof.
  intros _ _ HoT _ Hafter. split.
  - rewrite sync_Conditions, app_assoc.
    apply Find_mergeAll_last; assumption.
  - rewrite sync_Conditions. apply mergeAll_app.
Qed.

Lemma override_precedence_witness :
  exists c,
    FindStatusCondition
      (Conditions (Status (sync exampleClient settledRecord
         [upgradeableAt ConditionTrue 10 ReasonAsExpected]
         ([] ++ upgradeableAt ConditionFalse 10 "Override" :: []))))
      OperatorUpgradeable = Some c /\
    cond_Status c = ConditionFalse.
Proof.
  destruct (override_precedence exampleClient settledRecord
              [upgradeableAt ConditionTrue 10 ReasonAsExpected]
              [] (upgradeableAt ConditionFalse 10 "Override") []
              (upgradeableAt ConditionTrue 10 ReasonAsExpected) OperatorUpgradeable)
    as [[c [HF [HS _]]] _].
  - simpl. left. reflexivity.
  - reflexivity.
  - reflexivity.
  - vm_compute. discriminate.
  - reflexivity.
  - exists c. split; [exact HF | exact HS].
Defined.

End sync_facts.

(* ===================================================================== *)
(** ** The transitions *)
(* ===================================================================== *)

Module transition_facts.

Import controllers merge_facts sync_facts fixtures.

(** **** Fetching the record *)

Ltac world_cases w :=
  let st := fresh "st" in
  let ge := fresh "ge" in
  let ce := fresh "ce" in
  let ue := fresh "ue" in
  destruct w as [st ge ce ue ? ? ?];
  destruct ge as [[?|[] ?]|]; destruct st as [?|]; destruct ce as [?|].

(** A read that fails with anything but not-found: the caller gets a new
    error that quotes the store's, and nothing else is sent. *)
Lemma getOrCreate_Get_fails r w e :
  GetErr w = Some e -> IsNotFound (Some e) = false ->
  getOrCreateClusterOperator r w =
  (inr (errors_New ("failed to get clusterOperator " ++ Sprintf_q clusterOperatorName
                    ++ ": " ++ Error e)%string),
   sent (CallGet clusterOperatorName) w).
Proof.
  intros HG HN. cbv beta zeta delta [getOrCreateClusterOperator bind client_Get].
  rewrite HG. cbv beta iota. rewrite HN. reflexivity.
Qed.

(** A read that reports not-found, then a create that fails. *)
Lemma getOrCreate_Create_fails r w e :
  IsNotFound (snd (fst (client_Get clusterOperatorName freshRecord w))) = true ->
  CreateErr w = Some e ->
  getOrCreateClusterOperator r w =
  (inr (errors_New ("failed to create cluster operator: " ++ Error e)%string),
   sent (CallCreate freshRecord) (sent (CallGet clusterOperatorName) w)).
Proof.
  intros HN HC. unfold getOrCreateClusterOperator, bind.
  fold freshRecord.
  destruct (client_Get clusterOperatorName freshRecord w) as [[co err] w1] eqn:HG.
  simpl in HN. rewrite HN.
  assert (Hw1 : w1 = sent (CallGet clusterOperatorName) w /\ co = freshRecord).
  { unfold client_Get in HG. destruct (GetErr w); [|destruct (stored w)];
      injection HG as <- <- <-; auto; discriminate HN. }
  destruct Hw1 as [-> ->]. unfold client_Create. simpl. rewrite HC. reflexivity.
Qed.

(** A read that finds the record. *)
Lemma getOrCreate_reads_stored r w co :
  GetErr w = None -> stored w = Some co ->
  getOrCreateClusterOperator r w = (inl co, sent (CallGet clusterOperatorName) w).
Proof.
  intros HG HS. cbv beta zeta delta [getOrCreateClusterOperator bind client_Get].
  rewrite HG, HS. reflexivity.
Qed.

(** A successful fetch returns the stored record, or the record it has just
    created and stored; it leaves the planned failures, the clock and the
    stored versions and conditions as they were. *)
Lemma getOrCreate_found r w co w1 :
  getOrCreateClusterOperator r w = (inl co, w1) ->
  stored w1 = Some co /\
  Versions (Status co) = storedVersions w /\
  Conditions (Status co) = storedConditions w /\
  UpdateErr w1 = UpdateErr w /\ wall w1 = wall w /\ reads w1 = reads w /\
  (w1 = sent (CallGet clusterOperatorName) w \/
   w1 = store freshRecord (sent (CallCreate freshRecord) (sent (CallGet clusterOperatorName) w))).
Proof.
  unfold getOrCreateClusterOperator, bind, client_Get, client_Create, ret,
    storedVersions, storedConditions.
  world_cases w; simpl; intros H; try discriminate H;
    injection H as <- <-; simpl; repeat split; auto.
Qed.

Lemma getOrCreate_failed r w e w1 :
  getOrCreateClusterOperator r w = (inr e, w1) ->
  stored w1 = stored w.
Proof.
  unfold getOrCreateClusterOperator, bind, client_Get, client_Create, ret.
  world_cases w; simpl; intros H; try discriminate H;
    injection H as <- <-; reflexivity.
Qed.

(** **** The status update that ends a transition *)

Lemma Status_Update_outcome co' w :
  (exists e, client_Status_Update co' w = (Some e, sent (CallStatusUpdate co') w)) \/
  (exists o, stored w = Some o /\
             client_Status_Update co' w =
             (None, store (mkClusterOperator (Name o) (Status co'))
                          (sent (CallStatusUpdate co') w))).
Proof.
  unfold client_Status_Update.
  destruct (UpdateErr w) as [e|]; [left; eauto|].
  destruct (stored w) as [o|]; [right; eauto | left; eauto].
Qed.

Lemma Status_Update_fails co' w e :
  UpdateErr w = Some e ->
  client_Status_Update co' w = (Some e, sent (CallStatusUpdate co') w).
Proof. intros H. unfold client_Status_Update. rewrite H. reflexivity. Qed.

(** C9: the removal transition on a stored record that does not hold the
    target condition (an empty condition set included) returns no error,
    leaves the world as the read left it (so the stored record, conditions
    and versions, is unchanged) and sends no write: the read is the only
    request. *)
Theorem removal_without_condition_is_noop r w co :
  GetErr w = None -> stored w = Some co ->
  FindStatusCondition (Conditions (Status co)) cloudControllerOwnershipCondition = None ->
  clearCloudControllerOwnerCondition r w = (None, sent (CallGet clusterOperatorName) w) /\
  stored (snd (clearCloudControllerOwnerCondition r w)) = Some co /\
  calls (snd (clearCloudControllerOwnerCondition r w)) =
    calls w ++ [CallGet clusterOperatorName].
Proof.
  intros HG HS HF.
  assert (Hrun : clearCloudControllerOwnerCondition r w =
                 (None, sent (CallGet clusterOperatorName) w)).
  { unfold clearCloudControllerOwnerCondition, bind.
    rewrite (getOrCreate_reads_stored r w co HG HS), HF.
    destruct (Conditions (Status co)); reflexivity. }
  rewrite Hrun. simpl. auto.
Qed.

Lemma removal_without_condition_is_noop_witness :
  clearCloudControllerOwnerCondition exampleClient (quietWorld (Some settledRecord)) =
  (None, sent (CallGet clusterOperatorName) (quietWorld (Some settledRecord))).
Proof.
  apply (removal_without_condition_is_noop exampleClient
           (quietWorld (Some settledRecord)) settledRecord);
    reflexivity.
Defined.

(** **** The transitions after the fetch *)

Section WithRendering.

Variable StatusError_verb_e : StatusReason -> string -> string.

Lemma transition_fetch_failed r t w e w1 :
  getOrCreateClusterOperator r w = (inr e, w1) ->
  runTransition StatusError_verb_e r t w = (Some e, w1).
Proof.
  intros H. destruct t; simpl;
    unfold setStatusDegraded, setStatusProgressing, setStatusAvailable,
      clearCloudControllerOwnerCondition, bind; rewrite H; reflexivity.
Qed.

Lemma setStatusDegraded_found r reconcileErr overrides w co w1 :
  getOrCreateClusterOperator r w = (inl co, w1) ->
  setStatusDegraded StatusError_verb_e r reconcileErr overrides w =
  syncStatus r co
    [ mkCondition OperatorDegraded ConditionTrue (wall w1 (reads w1)) ReasonSyncFailed
        (if negb (reflect_DeepEqual (desiredVersions r) (Versions (Status co)))
         then ("Failed when progressing towards " ++ printOperandVersions (desiredVersions r)
               ++ " because " ++ Sprintf_e StatusError_verb_e reconcileErr)%string
         else ("Failed to resync for " ++ printOperandVersions (desiredVersions r)
               ++ " because " ++ Sprintf_e StatusError_verb_e reconcileErr)%string);
      mkCondition OperatorUpgradeable ConditionFalse (wall w1 (S (reads w1)))
        ReasonAsExpected "" ]
    overrides (snd (metav1_Now (snd (metav1_Now w1)))).
Proof.
  intros H. unfold setStatusDegraded, bind. rewrite H. reflexivity.
Qed.

Lemma setStatusProgressing_found r overrides w co w1 :
  getOrCreateClusterOperator r w = (inl co, w1) ->
  setStatusProgressing r overrides w =
  syncStatus r co
    [ mkCondition OperatorProgressing ConditionTrue (wall w1 (reads w1))
        (if negb (reflect_DeepEqual (desiredVersions r) (Versions (Status co)))
         then ReasonSyncing else ReasonAsExpected)
        (if negb (reflect_DeepEqual (desiredVersions r) (Versions (Status co)))
         then ("Progressing towards " ++ printOperandVersions (desiredVersions r))%string
         else "");
      mkCondition OperatorUpgradeable ConditionTrue (wall w1 (S (reads w1)))
        ReasonAsExpected "" ]
    overrides (snd (metav1_Now (snd (metav1_Now w1)))).
Proof.
  intros H. unfold setStatusProgressing, bind. rewrite H.
  destruct (negb (reflect_DeepEqual (desiredVersions r) (Versions (Status co))));
    reflexivity.
Qed.

Lemma setStatusAvailable_found r overrides w co w1 :
  getOrCreateClusterOperator r w = (inl co, w1) ->
  setStatusAvailable r overrides w =
  syncStatus r (withVersions co (desiredVersions r))
    [ mkCondition OperatorAvailable ConditionTrue (wall w1 (reads w1)) ReasonAsExpected
        ("Cluster Cloud Controller Manager Operator is available at "
         ++ ReleaseVersion r)%string;
      mkCondition OperatorProgressing ConditionFalse (wall w1 (S (reads w1)))
        ReasonAsExpected "";
      mkCondition OperatorDegraded ConditionFalse (wall w1 (S (S (reads w1))))
        ReasonAsExpected "";
      mkCondition OperatorUpgradeable ConditionTrue (wall w1 (S (S (S (reads w1)))))
        ReasonAsExpected "" ]
    overrides
    (snd (metav1_Now (snd (metav1_Now (snd (metav1_Now (snd (metav1_Now w1)))))))).
Proof.
  intros H. unfold setStatusAvailable, bind. rewrite H. reflexivity.
Qed.

Lemma clearCondition_found r w co w1 :
  getOrCreateClusterOperator r w = (inl co, w1) ->
  clearCloudControllerOwnerCondition r w =
  match FindStatusCondition (Conditions (Status co)) cloudControllerOwnershipCondition with
  | None => (None, w1)
  | Some _ =>
      syncStatus r
        (withVersions
           (withConditions co
              (RemoveStatusCondition (Conditions (Status co))
                 cloudControllerOwnershipCondition))
           (desiredVersions r)) [] [] w1
  end.
Proof.
  intros H. unfold clearCloudControllerOwnerCondition, bind. rewrite H.
  destruct (Conditions (Status co)) as [|c cs]; [reflexivity|].
  destruct (FindStatusCondition (c :: cs) cloudControllerOwnershipCondition); reflexivity.
Qed.

(** What a status update does to the stored versions. *)
Lemma syncStatus_storedVersions r co conds overrides w :
  storedVersions (snd (syncStatus r co conds overrides w)) =
  match fst (syncStatus r co conds overrides w) with
  | None => Versions (Status co)
  | Some _ => storedVersions w
  end.
Proof.
  unfold syncStatus.
  destruct (Status_Update_outcome (sync r co conds overrides) w)
    as [[e ->] | [o [Ho ->]]]; reflexivity.
Qed.

Lemma getOrCreate_keeps_store r w :
  storedVersions (snd (getOrCreateClusterOperator r w)) = storedVersions w /\
  storedConditions (snd (getOrCreateClusterOperator r w)) = storedConditions w.
Proof.
  destruct (getOrCreateClusterOperator r w) as [[co|e] w1] eqn:H; simpl.
  - destruct (getOrCreate_found r w co w1 H) as (HS & HV & HC & _).
    unfold storedVersions at 1, storedConditions at 1. rewrite HS. auto.
  - pose proof (getOrCreate_failed r w e w1 H) as HS.
    unfold storedVersions, storedConditions. rewrite HS. auto.
Qed.

(** C5, the code at the scenario's input: reconcile error
    [errors.New("connection refused")], release version 4.16.0, stored
    versions equal to the desired list.  The Degraded condition sent to the
    store is True/SyncingFailed and Upgradeable is False/AsExpected, but the
    message ends in the bad-verb rendering of the error value, not in the
    error text: the format string uses [%e]. *)
Theorem setStatusDegraded_resync_message :
  calls (snd (setStatusDegraded StatusError_verb_e exampleClient
                (errors_New "connection refused") []
                (quietWorld (Some settledRecord)))) =
  [ CallGet clusterOperatorName;
    CallStatusUpdate
      (mkClusterOperator clusterOperatorName
         (mkStatus
            [ mkCondition OperatorDegraded ConditionTrue 100%Z ReasonSyncFailed
                "Failed to resync for operator: 4.16.0 because &{%!e(string=connection refused)}";
              mkCondition OperatorUpgradeable ConditionFalse 100%Z ReasonAsExpected "" ]
            (desiredVersions exampleClient) (relatedObjects exampleClient))) ]
  /\ "Failed to resync for operator: 4.16.0 because &{%!e(string=connection refused)}"
     <> "Failed to resync for operator: 4.16.0 because connection refused".
Proof. split; [reflexivity | discriminate]. Qed.

(** C6, as stated, fails: a read that fails with an error other than
    not-found does not reach the caller unchanged; the caller gets a new
    error built from its text. *)
Lemma fetch_error_is_rewritten :
  ~ (forall verb r t w e,
       GetErr w = Some e -> IsNotFound (Some e) = false ->
       fst (runTransition verb r t w) = Some e).
Proof.
  intros H.
  specialize (H plainRendering exampleClient (Progressing [])
                (failingGet (errors_New "connection refused") (Some settledRecord))
                (errors_New "connection refused") eq_refl eq_refl).
  vm_compute in H. discriminate H.
Qed.

(** C6, amended: for every transition, a failing status update is returned
    to the caller unchanged, after that one update request; a read that
    fails with anything but not-found is returned as a new error whose text
    is [failed to get clusterOperator "cloud-controller-manager": ] followed
    by the store error's text, after that one read; a create that fails
    after a not-found read is returned as a new error whose text is
    [failed to create cluster operator: ] followed by the store error's
    text, after one read and one create.  No request is repeated. *)
Theorem store_errors_reach_caller r t w e :
  (GetErr w = Some e -> IsNotFound (Some e) = false ->
   runTransition StatusError_verb_e r t w =
   (Some (errors_New ("failed to get clusterOperator " ++ Sprintf_q clusterOperatorName
                      ++ ": " ++ Error e)%string),
    sent (CallGet clusterOperatorName) w)) /\
  (IsNotFound (snd (fst (client_Get clusterOperatorName freshRecord w))) = true ->
   CreateErr w = Some e ->
   runTransition StatusError_verb_e r t w =
   (Some (errors_New ("failed to create cluster operator: " ++ Error e)%string),
    sent (CallCreate freshRecord) (sent (CallGet clusterOperatorName) w))) /\
  (forall co w1,
     getOrCreateClusterOperator r w = (inl co, w1) -> UpdateErr w = Some e ->
     (exists co' w2,
        runTransition StatusError_verb_e r t w = (Some e, sent (CallStatusUpdate co') w2) /\
        calls w2 = calls w1 /\ stored w2 = stored w1) \/
     (t = ConditionRemoval /\
      FindStatusCondition (Conditions (Status co)) cloudControllerOwnershipCondition = None /\
      runTransition StatusError_verb_e r t w = (None, w1))).
Proof.
  split; [|split].
  - intros HG HN. apply transition_fetch_failed, getOrCreate_Get_fails; assumption.
  - intros HN HC. apply transition_fetch_failed, getOrCreate_Create_fails; assumption.
  - intros co w1 Hfetch HU.
    destruct (getOrCreate_found r w co w1 Hfetch) as (_ & _ & _ & HU1 & _).
    rewrite HU in HU1.
    destruct t as [reconcileErr overrides | overrides | overrides | ]; simpl.
    + left. rewrite (setStatusDegraded_found _ _ _ _ _ _ Hfetch).
      unfold syncStatus. do 2 eexists. split; [apply Status_Update_fails; exact HU1|].
      split; reflexivity.
    + left. rewrite (setStatusProgressing_found _ _ _ _ _ Hfetch).
      unfold syncStatus. do 2 eexists. split; [apply Status_Update_fails; exact HU1|].
      split; reflexivity.
    + left. rewrite (setStatusAvailable_found _ _ _ _ _ Hfetch).
      unfold syncStatus. do 2 eexists. split; [apply Status_Update_fails; exact HU1|].
      split; reflexivity.
    + rewrite (clearCondition_found _ _ _ _ Hfetch).
      destruct (FindStatusCondition (Conditions (Status co))
                  cloudControllerOwnershipCondition).
      * left. unfold syncStatus. do 2 eexists.
        split; [apply Status_Update_fails; exact HU1|]. split; reflexivity.
      * right. auto.
Qed.

(** C7: the Degraded and Progressing transitions leave the stored versions
    as they are; the Available transition, when it succeeds, leaves exactly
    the one-element list for the release version; the removal transition
    leaves the stored versions as they are when the stored record does not
    hold the target condition, and when it does and the transition succeeds
    it leaves exactly that one-element list. *)
Theorem versions_change_only_on_Available_and_removal r w :
  (forall reconcileErr overrides,
     storedVersions (snd (setStatusDegraded StatusError_verb_e r reconcileErr overrides w))
     = storedVersions w) /\
  (forall overrides,
     storedVersions (snd (setStatusProgressing r overrides w)) = storedVersions w) /\
  (forall overrides,
     fst (setStatusAvailable r overrides w) = None ->
     storedVersions (snd (setStatusAvailable r overrides w)) =
     [ mkOperandVersion "operator" (ReleaseVersion r) ]) /\
  (FindStatusCondition (storedConditions w) cloudControllerOwnershipCondition = None ->
   storedVersions (snd (clearCloudControllerOwnerCondition r w)) = storedVersions w) /\
  (FindStatusCondition (storedConditions w) cloudControllerOwnershipCondition <> None ->
   fst (clearCloudControllerOwnerCondition r w) = None ->
   storedVersions (snd (clearCloudControllerOwnerCondition r w)) =
   [ mkOperandVersion "operator" (ReleaseVersion r) ]).
Proof.
  destruct (getOrCreate_keeps_store r w) as [HV HC].
  destruct (getOrCreateClusterOperator r w) as [[co|e] w1] eqn:Hfetch; simpl in HV, HC.
  - destruct (getOrCreate_found r w co w1 Hfetch) as (_ & HVco & HCco & _).
    repeat split.
    + intros reconcileErr overrides.
      rewrite (setStatusDegraded_found _ _ _ _ _ _ Hfetch), syncStatus_storedVersions.
      destruct (fst _); [exact HV | exact HVco].
    + intros overrides.
      rewrite (setStatusProgressing_found _ _ _ _ _ Hfetch), syncStatus_storedVersions.
      destruct (fst _); [exact HV | exact HVco].
    + intros overrides.
      rewrite (setStatusAvailable_found _ _ _ _ _ Hfetch), syncStatus_storedVersions.
      intros ->. reflexivity.
    + rewrite (clearCondition_found _ _ _ _ Hfetch), HCco. intros ->. exact HV.
    + rewrite (clearCondition_found _ _ _ _ Hfetch), HCco.
      destruct (FindStatusCondition (storedConditions w) cloudControllerOwnershipCondition);
        [|congruence].
      intros _. rewrite syncStatus_storedVersions. intros ->. reflexivity.
  - assert (Hrun : forall t, runTransition StatusError_verb_e r t w = (Some e, w1))
      by (intros t; apply transition_fetch_failed, Hfetch).
    repeat split.
    + intros reconcileErr overrides.
      pose proof (Hrun (Degraded reconcileErr overrides)) as H. simpl in H.
      rewrite H. exact HV.
    + intros overrides. pose proof (Hrun (Progressing overrides)) as H. simpl in H.
      rewrite H. exact HV.
    + intros overrides. pose proof (Hrun (Available overrides)) as H. simpl in H.
      rewrite H. discriminate.
    + intros _. pose proof (Hrun ConditionRemoval) as H. simpl in H.
      rewrite H. exact HV.
    + intros _. pose proof (Hrun ConditionRemoval) as H. simpl in H.
      rewrite H. discriminate.
Qed.

(** C8: the Progressing transition computes two conditions and hands them
    to syncStatus.  When the fetched versions differ from the desired
    one-element list they are Progressing=True/SyncingResources with the
    message [Progressing towards operator: <release version>], and
    Upgradeable=True/AsExpected; when the versions are the desired list they
    are Progressing=True/AsExpected with an empty message, and
    Upgradeable=True/AsExpected.  With no overrides the record sent to the
    store holds both conditions with that status, reason and message. *)
Theorem setStatusProgressing_conditions r w co w1 :
  getOrCreateClusterOperator r w = (inl co, w1) ->
  exists reason message t1 t2 w2,
    (Versions (Status co) <> desiredVersions r ->
     reason = "SyncingResources" /\
     message = ("Progressing towards operator: " ++ ReleaseVersion r)%string) /\
    (Versions (Status co) = desiredVersions r ->
     reason = "AsExpected" /\ message = "") /\
    let conds :=
      [ mkCondition OperatorProgressing ConditionTrue t1 reason message;
        mkCondition OperatorUpgradeable ConditionTrue t2 "AsExpected" "" ] in
    (forall overrides,
       setStatusProgressing r overrides w = syncStatus r co conds overrides w2) /\
    (exists c,
       FindStatusCondition (Conditions (Status (sync r co conds []))) OperatorProgressing
       = Some c /\
       cond_Status c = ConditionTrue /\ cond_Reason c = reason /\ cond_Message c = message) /\
    (exists c,
       FindStatusCondition (Conditions (Status (sync r co conds []))) OperatorUpgradeable
       = Some c /\
       cond_Status c = ConditionTrue /\ cond_Reason c = "AsExpected" /\ cond_Message c = "").
Proof.
  intros Hfetch. do 5 eexists.
  split; [|split; [|split; [|split]]].
  3: { intros overrides. apply (setStatusProgressing_found _ _ _ _ _ Hfetch). }
  - intros Hne.
    destruct (reflect_DeepEqual (desiredVersions r) (Versions (Status co))) eqn:E.
    + apply reflect_DeepEqual_eq in E. congruence.
    + split; reflexivity.
  - intros Heq.
    destruct (reflect_DeepEqual (desiredVersions r) (Versions (Status co))) eqn:E.
    + split; reflexivity.
    + assert (E' : reflect_DeepEqual (desiredVersions r) (Versions (Status co)) = true)
        by (apply reflect_DeepEqual_eq; congruence).
      congruence.
  - rewrite sync_Conditions.
    match goal with
    | |- context [mergeAll ?k ([?p; ?u] ++ []) ?cs] =>
        destruct (Find_mergeAll_last k OperatorProgressing [] p [u] cs eq_refl eq_refl)
          as (c & HF & HS & HR & HM)
    end.
    exists c. simpl in HF. auto.
  - rewrite sync_Conditions.
    match goal with
    | |- context [mergeAll ?k ([?p; ?u] ++ []) ?cs] =>
        destruct (Find_mergeAll_last k OperatorUpgradeable [p] u [] cs eq_refl eq_refl)
          as (c & HF & HS & HR & HM)
    end.
    exists c. simpl in HF. auto.
Qed.

End WithRendering.

Lemma store_errors_reach_caller_witness :
  runTransition plainRendering exampleClient (Progressing [])
    (failingGet (errors_New "connection refused") (Some settledRecord)) =
  (Some (errors_New ("failed to get clusterOperator " ++ Sprintf_q clusterOperatorName
                     ++ ": connection refused")%string),
   sent (CallGet clusterOperatorName)
        (failingGet (errors_New "connection refused") (Some settledRecord))) /\
  fst (runTransition plainRendering exampleClient (Degraded (errors_New "boom") [])
         (failingCreate (errors_New "quota exceeded"))) =
  Some (errors_New "failed to create cluster operator: quota exceeded") /\
  fst (runTransition plainRendering exampleClient (Available [])
         (failingUpdate (StatusError StatusReasonConflict "conflict") (Some settledRecord))) =
  Some (StatusError StatusReasonConflict "conflict").
Proof.
  split; [|split].
  - apply (proj1 (store_errors_reach_caller plainRendering exampleClient (Progressing [])
                    (failingGet (errors_New "connection refused") (Some settledRecord))
                    (errors_New "connection refused")));
      reflexivity.
  - rewrite (proj1 (proj2 (store_errors_reach_caller plainRendering exampleClient
                             (Degraded (errors_New "boom") [])
                             (failingCreate (errors_New "quota exceeded"))
                             (errors_New "quota exceeded"))) eq_refl eq_refl).
    reflexivity.
  - destruct (proj2 (proj2 (store_errors_reach_caller plainRendering exampleClient
                              (Available [])
                              (failingUpdate (StatusError StatusReasonConflict "conflict")
                                             (Some settledRecord))
                              (StatusError StatusReasonConflict "conflict")))
                settledRecord _ eq_refl eq_refl)
      as [(co' & w2 & Hrun & _) | (Ht & _)].
    + rewrite Hrun. reflexivity.
    + discriminate Ht.
Defined.

Lemma versions_change_only_on_Available_and_removal_witness :
  storedVersions (snd (setStatusAvailable exampleClient [] (quietWorld (Some legacyRecord))))
  = [ mkOperandVersion "operator" "4.16.0" ] /\
  storedVersions (snd (clearCloudControllerOwnerCondition exampleClient
                         (quietWorld (Some legacyRecord))))
  = [ mkOperandVersion "operator" "4.16.0" ] /\
  storedVersions (snd (clearCloudControllerOwnerCondition exampleClient
                         (quietWorld (Some freshRecord))))
  = [].
Proof.
  pose proof (versions_change_only_on_Available_and_removal plainRendering exampleClient
                (quietWorld (Some legacyRecord))) as (_ & _ & HA & _ & HR).
  pose proof (versions_change_only_on_Available_and_removal plainRendering exampleClient
                (quietWorld (Some freshRecord))) as (_ & _ & _ & HN & _).
  split; [|split].
  - apply HA. reflexivity.
  - apply HR; [discriminate | reflexivity].
  - apply HN. reflexivity.
Defined.

Lemma setStatusProgressing_conditions_witness :
  exists conds w2 c,
    setStatusProgressing exampleClient [] (quietWorld None) =
      syncStatus exampleClient freshRecord conds [] w2 /\
    FindStatusCondition (Conditions (Status (sync exampleClient freshRecord conds [])))
      OperatorProgressing = Some c /\
    cond_Status c = "True" /\ cond_Reason c = "SyncingResources" /\
    cond_Message c = "Progressing towards operator: 4.16.0".
Proof.
  destruct (setStatusProgressing_conditions exampleClient (quietWorld None) freshRecord _
              eq_refl)
    as (reason & message & t1 & t2 & w2 & Hdiff & _ & Hrun & (c & HF & HS & HR & HM) & _).
  destruct Hdiff as [-> ->]; [discriminate|].
  exists [ mkCondition OperatorProgressing ConditionTrue t1 "SyncingResources"
             "Progressing towards operator: 4.16.0";
           mkCondition OperatorUpgradeable ConditionTrue t2 "AsExpected" "" ], w2, c.
  split; [apply Hrun|]. split; [exact HF|]. auto.
Defined.

End transition_facts.

(* ===================================================================== *)
(** ** The PEM utility *)
(* ===================================================================== *)

Module certificate_facts.

Import util.

Section Loop.

Variable Certificate : Type.
Variable pem_Decode : list Byte.byte -> option Block * list Byte.byte.
Variable x509_ParseCertificate : list Byte.byte -> Certificate + error.
Hypothesis pem_Decode_consumes : forall data block rest,
  pem_Decode data = (Some block, rest) -> length rest < length data.

Lemma CertificateData_loop_step data certBundle :
  data <> [] ->
  CertificateData_loop Certificate pem_Decode x509_ParseCertificate pem_Decode_consumes
    data certBundle =
  match pem_Decode data with
  | (None, _) => inr (errors_New "failed to parse certificate PEM")
  | (Some block, rest) =>
      if String.eqb (block_Type block) certPEMBlock
      then match x509_ParseCertificate (block_Bytes block) with
           | inl cert =>
               CertificateData_loop Certificate pem_Decode x509_ParseCertificate
                 pem_Decode_consumes rest (certBundle ++ [cert])
           | inr err => inr (errors_New ("failed to parse certificate: " ++ Error err)%string)
           end
      else inr (errors_New ("invalid certificate PEM, must be of type "
                            ++ Sprintf_q certPEMBlock)%string)
  end.
Proof.
  intros Hne. destruct data as [|b bs]; [congruence|].
  simp CertificateData_loop.
  destruct (inspect (pem_Decode (b :: bs))) as [[[block|] rest] Hdec];
    (etransitivity; [| symmetry; rewrite Hdec; reflexivity]).
  - simp CertificateData_loop.
    destruct (String.eqb (block_Type block) certPEMBlock); [|reflexivity].
    simpl. destruct (x509_ParseCertificate (block_Bytes block)); reflexivity.
  - reflexivity.
Qed.

Local Notation "'loop'" :=
  (CertificateData_loop Certificate pem_Decode x509_ParseCertificate pem_Decode_consumes)
  (only parsing).
Local Notation "'Good'" :=
  (AllBlocksGood Certificate pem_Decode x509_ParseCertificate) (only parsing).
Local Notation "'Bad'" :=
  (SomeBlockBad Certificate pem_Decode x509_ParseCertificate) (only parsing).

Lemma loop_on_good_blocks data certs :
  Good data certs -> forall certBundle, loop data certBundle = inl (certBundle ++ certs).
Proof.
  induction 1 as [|data block rest cert certs Hne Hdec Hty Hparse _ IH]; intros certBundle.
  - simp CertificateData_loop. rewrite app_nil_r. reflexivity.
  - rewrite (CertificateData_loop_step data certBundle Hne), Hdec, Hty,
      String.eqb_refl, Hparse, IH, <- app_assoc.
    reflexivity.
Qed.

Lemma loop_on_bad_block data :
  Bad data -> forall certBundle, exists err, loop data certBundle = inr err.
Proof.
  induction 1 as [data rest Hne Hdec
                 |data block rest Hne Hdec Hty
                 |data block rest err Hne Hdec Hty Hparse
                 |data block rest cert Hne Hdec Hty Hparse _ IH]; intros certBundle;
    rewrite (CertificateData_loop_step data certBundle Hne), Hdec.
  - eauto.
  - apply String.eqb_neq in Hty. rewrite Hty. eauto.
  - rewrite Hty, String.eqb_refl, Hparse. eauto.
  - rewrite Hty, String.eqb_refl, Hparse. apply IH.
Qed.

(** Every input is of one kind or the other: the decoder consumes input, so
    the walk over the blocks ends. *)
Lemma blocks_classified (n : nat) :
  forall data, length data <= n -> (exists certs, Good data certs) \/ Bad data.
Proof.
  induction n as [|n IH]; intros data Hn.
  - destruct data; [|simpl in Hn; lia]. left. exists []. constructor.
  - destruct data as [|b bs]; [left; exists []; constructor|].
    assert (Hne : b :: bs <> []) by discriminate.
    destruct (pem_Decode (b :: bs)) as [[block|] rest] eqn:Hdec.
    + destruct (String.eqb_spec (block_Type block) certPEMBlock) as [Hty|Hty].
      * destruct (x509_ParseCertificate (block_Bytes block)) as [cert|err] eqn:Hparse.
        -- pose proof (pem_Decode_consumes _ _ _ Hdec) as Hlt.
           destruct (IH rest) as [[certs Hgood]|Hbad]; [simpl in *; lia | |].
           ++ left. exists (cert :: certs). econstructor; eassumption.
           ++ right. eapply Bad_later; eassumption.
        -- right. eapply Bad_parse; eassumption.
      * right. eapply Bad_type; eassumption.
    + right. eapply Bad_decode; eassumption.
Qed.

(** C10: CertificateData returns an error exactly when some block of the
    input does not decode, is not of type CERTIFICATE, or does not parse as
    a certificate; on the empty input it returns the empty list and no
    error; and it returns a list of certificates exactly when every block is
    good, the list being the parsed certificates in input order. *)
Theorem CertificateData_error_iff_bad_block :
  CertificateData Certificate pem_Decode x509_ParseCertificate pem_Decode_consumes []
  = inl [] /\
  (forall data,
     (exists err, CertificateData Certificate pem_Decode x509_ParseCertificate
                    pem_Decode_consumes data = inr err)
     <-> Bad data) /\
  (forall data certs,
     CertificateData Certificate pem_Decode x509_ParseCertificate
       pem_Decode_consumes data = inl certs
     <-> Good data certs).
Proof.
  unfold CertificateData. split; [|split].
  - simp CertificateData_loop. reflexivity.
  - intros data. split.
    + intros [err Herr].
      destruct (blocks_classified (length data) data (le_n _)) as [[certs Hgood]|Hbad];
        [|exact Hbad].
      rewrite (loop_on_good_blocks data certs Hgood) in Herr. discriminate Herr.
    + intros Hbad. apply loop_on_bad_block, Hbad.
  - intros data certs. split.
    + intros Hrun.
      destruct (blocks_classified (length data) data (le_n _)) as [[certs' Hgood]|Hbad].
      * rewrite (loop_on_good_blocks data certs' Hgood) in Hrun. simpl in Hrun.
        injection Hrun as <-. exact Hgood.
      * destruct (loop_on_bad_block data Hbad []) as [err Herr].
        rewrite Herr in Hrun. discriminate Hrun.
    + intros Hgood. apply (loop_on_good_blocks data certs Hgood []).
Qed.

End Loop.

Lemma byteBlocks_consumes data block rest :
  fixtures.byteBlocks data = (Some block, rest) -> length rest < length data.
Proof.
  destruct data as [|b bs]; simpl; intros H.
  - discriminate H.
  - injection H as _ <-. lia.
Qed.

Lemma CertificateData_error_iff_bad_block_witness :
  CertificateData (list Byte.byte) fixtures.byteBlocks fixtures.bytesAsCertificate
    byteBlocks_consumes [Byte.x41; Byte.x42]
  = inl [[Byte.x41]; [Byte.x42]].
Proof.
  apply (proj2 (proj2 (CertificateData_error_iff_bad_block (list Byte.byte)
                         fixtures.byteBlocks fixtures.bytesAsCertificate
                         byteBlocks_consumes))).
  eapply Good_block; [discriminate | reflexivity | reflexivity | reflexivity |].
  eapply Good_block; [discriminate | reflexivity | reflexivity | reflexivity |].
  apply Good_end.
Defined.

End certificate_facts.

(* ===================================================================== *)
(** ** More on the condition merge: shape of the list, restamped batches *)
(* ===================================================================== *)

Module merge_shape.

Import controllers merge_facts.

Lemma cond_ext (a b : ClusterOperatorStatusCondition) :
  cond_Type a = cond_Type b -> cond_Status a = cond_Status b ->
  cond_LastTransitionTime a = cond_LastTransitionTime b ->
  cond_Reason a = cond_Reason b -> cond_Message a = cond_Message b -> a = b.
Proof. destruct a, b. simpl. intros -> -> -> -> ->. reflexivity. Qed.

Lemma follow_app c us vs : follow c (us ++ vs) = follow (follow c us) vs.
Proof. unfold follow. rewrite fold_left_app. reflexivity. Qed.

Lemma follow_cons c u us :
  follow c (u :: us) =
  follow (if String.eqb (cond_Type c) (cond_Type u) then mergeCondition c u else c) us.
Proof. reflexivity. Qed.

Lemma touches_app T us vs : touches T (us ++ vs) = touches T us || touches T vs.
Proof. unfold touches. apply existsb_app. Qed.

Lemma untouched_app T us vs : untouched T (us ++ vs) = untouched T us ++ untouched T vs.
Proof. unfold untouched. apply filter_app. Qed.

Lemma touches_In T us : touches T us = true <-> In T (map cond_Type us).
Proof.
  unfold touches. rewrite existsb_exists, in_map_iff. split.
  - intros [u [Hu HT]]. apply String.eqb_eq in HT. eauto.
  - intros [u [HT Hu]]. exists u. split; [exact Hu|]. apply String.eqb_eq. auto.
Qed.

Lemma touches_false_In T us : touches T us = false <-> ~ In T (map cond_Type us).
Proof.
  rewrite <- touches_In. destruct (touches T us); split; congruence || auto.
Qed.

(** **** The types held, in order *)

Lemma Set_types clock u cs :
  map cond_Type (SetStatusCondition cs u clock) =
  if existsb (fun c => String.eqb (cond_Type c) (cond_Type u)) cs
  then map cond_Type cs
  else map cond_Type cs ++ [cond_Type u].
Proof.
  induction cs as [|c cs IH]; simpl.
  - reflexivity.
  - destruct (String.eqb (cond_Type c) (cond_Type u)); simpl.
    + reflexivity.
    + rewrite IH. destruct (existsb _ cs); reflexivity.
Qed.

Lemma existsb_type_In (T : ClusterStatusConditionType) cs :
  existsb (fun c => String.eqb (cond_Type c) T) cs = false ->
  ~ In T (map cond_Type cs).
Proof.
  intros H Hin. apply in_map_iff in Hin as [c [HT Hc]].
  assert (E : existsb (fun c => String.eqb (cond_Type c) T) cs = true).
  { apply existsb_exists. exists c. split; [exact Hc|]. apply String.eqb_eq, HT. }
  congruence.
Qed.

Lemma mergeAll_types clock us :
  forall cs,
    (exists added,
       map cond_Type (mergeAll clock us cs) = map cond_Type cs ++ added /\
       (forall T, In T added -> In T (map cond_Type us))) /\
    (NoDup (map cond_Type cs) -> NoDup (map cond_Type (mergeAll clock us cs))).
Proof.
  induction us as [|u us IH]; intros cs.
  - split; [exists []; rewrite app_nil_r; split; [reflexivity | intros T []] | auto].
  - change (mergeAll clock (u :: us) cs)
      with (mergeAll clock us (SetStatusCondition cs u clock)).
    destruct (IH (SetStatusCondition cs u clock)) as [[added [Hmap Hadded]] Hnd].
    rewrite Set_types in Hmap, Hnd.
    destruct (existsb (fun c => String.eqb (cond_Type c) (cond_Type u)) cs) eqn:E.
    + split; [|exact Hnd]. exists added. split; [exact Hmap|].
      intros T HT. right. apply Hadded, HT.
    + split.
      * exists (cond_Type u :: added). rewrite Hmap, <- app_assoc. split; [reflexivity|].
        intros T [<-|HT]; [left; reflexivity | right; apply Hadded, HT].
      * intros Hcs. apply Hnd. apply NoDup_app; [exact Hcs | repeat constructor; auto |].
        intros T HT [<-|[]]. revert HT. apply existsb_type_In, E.
Qed.

(** **** Batches that differ in their timestamps only *)

Lemma follow_agree us :
  forall x y, touches (cond_Type x) us = true ->
    cond_Type x = cond_Type y -> cond_Status x = cond_Status y ->
    cond_LastTransitionTime x = cond_LastTransitionTime y ->
    follow x us = follow y us.
Proof.
  induction us as [|u us IH]; intros x y Ht HT HS Htime; simpl in Ht.
  - discriminate.
  - rewrite !follow_cons, <- HT.
    destruct (String.eqb (cond_Type x) (cond_Type u)) eqn:Hu.
    + f_equal. apply cond_ext; simpl; auto. rewrite HS, Htime. reflexivity.
    + apply IH; assumption.
Qed.

(** Two starts of one type and status end alike once the status has moved. *)
Lemma follow_after_flip us :
  forall x y, cond_Type x = cond_Type y -> cond_Status x = cond_Status y ->
    cond_Status (follow x us) <> cond_Status x ->
    follow x us = follow y us.
Proof.
  induction us as [|u us IH]; intros x y HT HS Hflip.
  - exfalso. apply Hflip. reflexivity.
  - rewrite !follow_cons in *. rewrite <- HT.
    destruct (String.eqb (cond_Type x) (cond_Type u)) eqn:Hu; [|apply IH; assumption].
    destruct (String.eqb_spec (cond_Status x) (cond_Status u)) as [Hs|Hs].
    + apply IH; simpl; auto. rewrite <- Hs. exact Hflip.
    + f_equal. apply cond_ext; simpl; auto.
      rewrite <- HS.
      destruct (String.eqb_spec (cond_Status x) (cond_Status u)); [contradiction|reflexivity].
Qed.

Lemma follow_policy_then_again c p p' os :
  sameButTime p p' -> cond_Type c = cond_Type p ->
  follow (mergeCondition (follow (mergeCondition c p) os) p') os =
  follow (mergeCondition c p) os.
Proof.
  intros (HT & HS & HR & HM) Hc.
  set (m := mergeCondition c p). set (d := follow m os).
  assert (Hd : follow d os = d) by (unfold d; apply follow_idempotent).
  assert (HTd : cond_Type d = cond_Type c) by (unfold d; rewrite follow_Type; reflexivity).
  destruct (touches (cond_Type c) os) eqn:Htouch.
  - destruct (String.eqb_spec (cond_Status d) (cond_Status p')) as [Hs|Hs].
    + rewrite <- Hd at 2. apply follow_agree; simpl; try congruence.
      rewrite Hs, String.eqb_refl. reflexivity.
    + symmetry. apply follow_after_flip; simpl; try congruence.
      fold m. fold d. congruence.
  - assert (Hdm : d = m) by (unfold d; apply follow_untouched; exact Htouch).
    rewrite Hdm.
    assert (Hmm : mergeCondition m p' = m).
    { apply cond_ext; simpl; try congruence. rewrite HS, String.eqb_refl. reflexivity. }
    rewrite Hmm. apply follow_untouched. exact Htouch.
Qed.

Lemma restamped_touches T ps ps' :
  restamped ps ps' -> touches T ps' = touches T ps.
Proof.
  induction 1 as [|p p' ps ps' (HT & _) _ IH]; simpl.
  - reflexivity.
  - rewrite IH, HT. reflexivity.
Qed.

Lemma restamped_untouched T ps ps' :
  restamped ps ps' -> restamped (untouched T ps) (untouched T ps').
Proof.
  induction 1 as [|p p' ps ps' Hp _ IH]; simpl.
  - constructor.
  - destruct Hp as (HT & HS & HR & HM). rewrite <- HT.
    destruct (negb (String.eqb T (cond_Type p))); [constructor; [repeat split; auto|]|];
      exact IH.
Qed.

Lemma untouched_types_NoDup T ps :
  NoDup (map cond_Type ps) -> NoDup (map cond_Type (untouched T ps)).
Proof.
  induction ps as [|p ps IH]; simpl; intros H.
  - constructor.
  - inversion H as [|? ? Hnotin Hrest]; subst.
    destruct (negb (String.eqb T (cond_Type p))); simpl; [|auto].
    constructor; [|auto].
    intros Hin. apply Hnotin. apply in_map_iff in Hin as [q [Hq Hin]].
    apply filter_In in Hin as [Hin _]. apply in_map_iff. eauto.
Qed.

(** What a batch with one condition per type does to a condition: nothing,
    or the merge of the one condition of its type. *)
Lemma follow_policy ps ps' T :
  restamped ps ps' -> NoDup (map cond_Type ps) ->
  (touches T ps = false /\ touches T ps' = false) \/
  (exists p p', sameButTime p p' /\ cond_Type p = T /\
     forall x, cond_Type x = T ->
       follow x ps = mergeCondition x p /\ follow x ps' = mergeCondition x p').
Proof.
  induction 1 as [|p p' ps ps' Hp Hrest IH]; intros Hnd.
  - left. auto.
  - inversion Hnd as [|? ? Hnotin Hnd']; subst.
    destruct (String.eqb_spec T (cond_Type p)) as [HT|HT].
    + right. exists p, p'. split; [exact Hp|]. split; [auto|].
      intros x Hx. destruct Hp as (HTp & _).
      rewrite !follow_cons, <- HTp, Hx, HT, String.eqb_refl.
      apply touches_false_In in Hnotin.
      split; apply follow_untouched; simpl; [|rewrite (restamped_touches _ _ _ Hrest)];
        rewrite Hx, HT; exact Hnotin.
    + destruct (IH Hnd') as [[H1 H2] | (q & q' & Hq & HqT & Hfollow)].
      * left. simpl. destruct Hp as (HTp & _). rewrite <- HTp.
        apply String.eqb_neq in HT. rewrite HT, H1, H2. auto.
      * right. exists q, q'. split; [exact Hq|]. split; [exact HqT|].
        intros x Hx. destruct Hp as (HTp & _).
        rewrite !follow_cons, <- HTp, Hx.
        apply String.eqb_neq in HT. rewrite HT. apply Hfollow, Hx.
Qed.

Lemma follow_restamped ps ps' os :
  restamped ps ps' -> NoDup (map cond_Type ps) ->
  forall c, follow (follow c (ps ++ os)) (ps' ++ os) = follow c (ps ++ os).
Proof.
  intros Hre Hnd c. rewrite !follow_app.
  destruct (follow_policy ps ps' (cond_Type c) Hre Hnd)
    as [[H1 H2] | (p & p' & Hp & HpT & Hfollow)].
  - rewrite (follow_untouched ps c H1).
    rewrite (follow_untouched ps' (follow c os)) by (rewrite follow_Type; exact H2).
    apply follow_idempotent.
  - destruct (Hfollow c eq_refl) as [-> _].
    destruct (Hfollow (follow (mergeCondition c p) os)) as [_ ->];
      [rewrite follow_Type; reflexivity|].
    apply follow_policy_then_again; [exact Hp | congruence].
Qed.

Lemma mergeAll_restamped_bounded clock (n : nat) :
  forall ps ps' os cs,
    restamped ps ps' -> NoDup (map cond_Type ps) ->
    length (ps ++ os) + length cs <= n ->
    mergeAll clock (ps' ++ os) (mergeAll clock (ps ++ os) cs) =
    mergeAll clock (ps ++ os) cs.
Proof.
  induction n as [|n IH]; intros ps ps' os cs Hre Hnd Hn.
  - destruct cs; [|simpl in Hn; lia].
    destruct ps as [|p ps]; [|simpl in Hn; lia].
    destruct os; [|simpl in Hn; lia].
    inversion Hre; subst. reflexivity.
  - destruct cs as [|c cs].
    + destruct (ps ++ os) as [|u us] eqn:E.
      * destruct ps; [|discriminate E]. simpl in E. subst os.
        inversion Hre; subst. reflexivity.
      * rewrite mergeAll_nil, mergeAll_cons, <- E, follow_Type.
        rewrite (follow_restamped ps ps' os Hre Hnd u).
        f_equal. rewrite !untouched_app.
        apply IH;
          [apply restamped_untouched, Hre | apply untouched_types_NoDup, Hnd |].
        rewrite <- untouched_app, E. simpl. rewrite String.eqb_refl. simpl.
        pose proof (untouched_length (cond_Type u) us). simpl in Hn. lia.
    + rewrite !mergeAll_cons, follow_Type.
      rewrite (follow_restamped ps ps' os Hre Hnd c).
      f_equal. rewrite !untouched_app.
      apply IH;
        [apply restamped_untouched, Hre | apply untouched_types_NoDup, Hnd |].
      rewrite <- untouched_app.
      pose proof (untouched_length (cond_Type c) (ps ++ os)). simpl in Hn. lia.
Qed.

Lemma mergeAll_restamped clock ps ps' os cs :
  restamped ps ps' -> NoDup (map cond_Type ps) ->
  mergeAll clock (ps' ++ os) (mergeAll clock (ps ++ os) cs) =
  mergeAll clock (ps ++ os) cs.
Proof.
  intros Hre Hnd.
  apply (mergeAll_restamped_bounded clock (length (ps ++ os) + length cs)); auto.
Qed.

Lemma Find_Remove cs T :
  FindStatusCondition (RemoveStatusCondition cs T) T = None.
Proof.
  unfold RemoveStatusCondition. induction cs as [|c cs IH]; simpl.
  - reflexivity.
  - destruct (String.eqb (cond_Type c) T) eqn:E; simpl.
    + exact IH.
    + rewrite E. exact IH.
Qed.

End merge_shape.

(* ===================================================================== *)
(** ** How the transitions act on the store and compose *)
(* ===================================================================== *)

Module transition_compose.

Import controllers merge_facts merge_shape sync_facts transition_facts fixtures.

(** **** The fetch, once more *)

Lemma getOrCreate_found_existing r w o co w1 :
  stored w = Some o ->
  getOrCreateClusterOperator r w = (inl co, w1) ->
  co = o /\ w1 = sent (CallGet clusterOperatorName) w.
Proof.
  unfold getOrCreateClusterOperator, bind, client_Get, client_Create, ret.
  intros HS. destruct w as [st ge ce ue wl rd cl]. simpl in HS. subst st.
  destruct ge as [[?|[] ?]|]; destruct ce as [?|]; simpl; intros H;
    try discriminate H; injection H as <- <-; auto.
Qed.

Lemma getOrCreate_requests r w :
  calls (snd (getOrCreateClusterOperator r w)) = calls w ++ [CallGet clusterOperatorName] \/
  calls (snd (getOrCreateClusterOperator r w)) =
    calls w ++ [CallGet clusterOperatorName; CallCreate freshRecord].
Proof.
  unfold getOrCreateClusterOperator, bind, client_Get, client_Create, ret.
  destruct w as [st ge ce ue wl rd cl].
  destruct ge as [[?|[] ?]|]; destruct st as [?|]; destruct ce as [?|]; simpl;
    rewrite <- ?app_assoc; auto.
Qed.

Lemma getOrCreate_keeps_existing r w o :
  stored w = Some o -> stored (snd (getOrCreateClusterOperator r w)) = Some o.
Proof.
  intros HS. destruct (getOrCreateClusterOperator r w) as [[co|e] w1] eqn:H; simpl.
  - destruct (getOrCreate_found_existing r w o co w1 HS H) as [_ ->]. exact HS.
  - rewrite (getOrCreate_failed r w e w1 H). exact HS.
Qed.

Lemma afterReadings_fields n w :
  stored (afterReadings n w) = stored w /\
  GetErr (afterReadings n w) = GetErr w /\
  CreateErr (afterReadings n w) = CreateErr w /\
  UpdateErr (afterReadings n w) = UpdateErr w /\
  calls (afterReadings n w) = calls w.
Proof.
  unfold afterReadings. induction n as [|n IH]; simpl; [repeat split|].
  destruct IH as (H1 & H2 & H3 & H4 & H5). repeat split; assumption.
Qed.

(** **** One description for the four transitions *)

Lemma transition_run render r t w co w1 :
  getOrCreateClusterOperator r w = (inl co, w1) ->
  runTransition render r t w =
  if reachesSync t co
  then syncStatus r (policyRecord r t co)
         (policyConditions render r t co (fun i => wall w1 (i + reads w1)))
         (overridesOf t) (afterReadings (readingsOf t) w1)
  else (None, w1).
Proof.
  intros H. destruct t as [reconcileErr overrides | overrides | overrides |]; simpl.
  - exact (setStatusDegraded_found render r reconcileErr overrides w co w1 H).
  - exact (setStatusProgressing_found r overrides w co w1 H).
  - exact (setStatusAvailable_found r overrides w co w1 H).
  - rewrite (clearCondition_found r w co w1 H).
    destruct (FindStatusCondition (Conditions (Status co)) cloudControllerOwnershipCondition);
      reflexivity.
Qed.

Lemma policyRecord_Name r t co : Name (policyRecord r t co) = Name co.
Proof. destruct t; reflexivity. Qed.

Lemma syncStatus_outcome r co conds overrides w o :
  stored w = Some o ->
  (exists e, UpdateErr w = Some e /\
     syncStatus r co conds overrides w =
     (Some e, sent (CallStatusUpdate (sync r co conds overrides)) w)) \/
  (UpdateErr w = None /\
   syncStatus r co conds overrides w =
   (None, store (mkClusterOperator (Name o) (Status (sync r co conds overrides)))
                (sent (CallStatusUpdate (sync r co conds overrides)) w))).
Proof.
  intros HS. unfold syncStatus, client_Status_Update. rewrite HS.
  destruct (UpdateErr w) as [e|]; [left; eauto | right; auto].
Qed.

(** A transition that returns nil has fetched a record and leaves in the
    store the record described by [settled]. *)
Lemma transition_success render r t w :
  fst (runTransition render r t w) = None ->
  exists co w1,
    getOrCreateClusterOperator r w = (inl co, w1) /\
    stored (snd (runTransition render r t w)) =
    Some (settled render r t co (fun i => wall w1 (i + reads w1))).
Proof.
  intros Hok. destruct (getOrCreateClusterOperator r w) as [[co|e] w1] eqn:Hfetch.
  - exists co, w1. split; [reflexivity|].
    destruct (getOrCreate_found r w co w1 Hfetch) as (HS & _).
    rewrite (transition_run render r t w co w1 Hfetch) in *. unfold settled.
    destruct (reachesSync t co); [|exact HS].
    destruct (afterReadings_fields (readingsOf t) w1) as (HS2 & _).
    rewrite HS in HS2.
    destruct (syncStatus_outcome r (policyRecord r t co)
                (policyConditions render r t co (fun i => wall w1 (i + reads w1)))
                (overridesOf t) _ co HS2) as [(e & _ & Hrun) | (_ & Hrun)];
      rewrite Hrun in *; [discriminate Hok|].
    simpl. rewrite <- (policyRecord_Name r t co). reflexivity.
  - rewrite (transition_fetch_failed render r t w e w1 Hfetch) in Hok. discriminate Hok.
Qed.

(** A transition that returns an error has not touched a record that was
    there. *)
Lemma failed_run_keeps_record render r t w o :
  stored w = Some o -> fst (runTransition render r t w) <> None ->
  stored (snd (runTransition render r t w)) = Some o.
Proof.
  intros HS Hfail. destruct (getOrCreateClusterOperator r w) as [[co|e] w1] eqn:Hfetch.
  - destruct (getOrCreate_found_existing r w o co w1 HS Hfetch) as [-> ->].
    rewrite (transition_run render r t w o _ Hfetch) in *.
    destruct (reachesSync t o); [|exfalso; apply Hfail; reflexivity].
    destruct (afterReadings_fields (readingsOf t) (sent (CallGet clusterOperatorName) w))
      as (HS2 & _).
    simpl in HS2. rewrite HS in HS2.
    destruct (syncStatus_outcome r (policyRecord r t o)
                (policyConditions render r t o
                   (fun i => wall (sent (CallGet clusterOperatorName) w)
                                  (i + reads (sent (CallGet clusterOperatorName) w))))
                (overridesOf t) _ o HS2) as [(e & _ & Hrun) | (_ & Hrun)];
      rewrite Hrun in *; [exact HS2 | exfalso; apply Hfail; reflexivity].
  - rewrite (transition_fetch_failed render r t w e w1 Hfetch). simpl.
    rewrite (getOrCreate_failed r w e w1 Hfetch). exact HS.
Qed.

(** **** Running a transition on its own result *)

Lemma policyConditions_restamped render r t co co' stamp stamp' :
  Versions (Status co') = Versions (Status co) ->
  restamped (policyConditions render r t co stamp) (policyConditions render r t co' stamp').
Proof.
  intros HV. destruct t; simpl; rewrite ?HV;
    repeat (constructor; [repeat split|]); constructor.
Qed.

Lemma policyConditions_types_NoDup render r t co stamp :
  NoDup (map cond_Type (policyConditions render r t co stamp)).
Proof.
  destruct t; simpl; repeat constructor; simpl; intuition discriminate.
Qed.

Lemma sync_restamped r co conds conds' overrides :
  restamped conds conds' -> NoDup (map cond_Type conds) ->
  sync r (sync r co conds overrides) conds' overrides = sync r co conds overrides.
Proof.
  intros Hre Hnd. rewrite (sync_eq r (sync r co conds overrides)).
  rewrite sync_Conditions, sync_Versions, (mergeAll_restamped _ _ _ _ _ Hre Hnd).
  rewrite (sync_eq r co). reflexivity.
Qed.

Lemma withVersions_sync r co conds overrides versions :
  withVersions (sync r (withVersions co versions) conds overrides) versions =
  sync r (withVersions co versions) conds overrides.
Proof. reflexivity. Qed.

Lemma settled_idempotent render r t co stamp stamp' :
  settled render r t (settled render r t co stamp) stamp' = settled render r t co stamp.
Proof.
  unfold settled. destruct (reachesSync t co) eqn:Hreach.
  - destruct t as [reconcileErr overrides | overrides | overrides |];
      cbn [reachesSync policyRecord overridesOf].
    + apply sync_restamped;
        [apply policyConditions_restamped; reflexivity
        | apply policyConditions_types_NoDup].
    + apply sync_restamped;
        [apply policyConditions_restamped; reflexivity
        | apply policyConditions_types_NoDup].
    + rewrite withVersions_sync.
      apply sync_restamped; [|apply policyConditions_types_NoDup].
      simpl. repeat (constructor; [repeat split|]). constructor.
    + rewrite sync_Conditions. cbn [policyRecord policyConditions overridesOf app mergeAll
        fold_left withVersions withConditions Status Conditions].
      rewrite Find_Remove. reflexivity.
  - rewrite Hreach. reflexivity.
Qed.

End transition_compose.

(* ===================================================================== *)
(** ** Properties of the fetch, the transitions and the sync *)
(* ===================================================================== *)

Module store_properties.

Import controllers merge_facts merge_shape sync_facts transition_facts transition_compose
  fixtures.

Lemma getOrCreate_keeps_plan r w :
  GetErr (snd (getOrCreateClusterOperator r w)) = GetErr w /\
  CreateErr (snd (getOrCreateClusterOperator r w)) = CreateErr w /\
  UpdateErr (snd (getOrCreateClusterOperator r w)) = UpdateErr w.
Proof.
  unfold getOrCreateClusterOperator, bind, client_Get, client_Create, ret.
  destruct w as [st ge ce ue wl rd cl].
  destruct ge as [[?|[] ?]|]; destruct st as [?|]; destruct ce as [?|]; simpl; auto.
Qed.

Lemma run_keeps_plan render r t w :
  GetErr (snd (runTransition render r t w)) = GetErr w /\
  UpdateErr (snd (runTransition render r t w)) = UpdateErr w.
Proof.
  destruct (getOrCreate_keeps_plan r w) as (HG & _ & HU).
  destruct (getOrCreateClusterOperator r w) as [[co|e] w1] eqn:Hfetch; simpl in HG, HU.
  - rewrite (transition_run render r t w co w1 Hfetch).
    destruct (reachesSync t co); [|auto].
    destruct (afterReadings_fields (readingsOf t) w1) as (_ & HG2 & _ & HU2 & _).
    unfold syncStatus, client_Status_Update.
    destruct (UpdateErr (afterReadings (readingsOf t) w1)) eqn:E;
      [|destruct (stored (afterReadings (readingsOf t) w1))]; simpl; split; congruence.
  - rewrite (transition_fetch_failed render r t w e w1 Hfetch). auto.
Qed.

(** X1: create-if-absent.  With no record stored and no store failure, the
    fetch answers with the empty record named cloud-controller-manager after
    one read and one create, and leaves it stored; the next fetch finds it
    with a single read and creates nothing. *)
Theorem getOrCreate_creates_once r w :
  GetErr w = None -> CreateErr w = None -> stored w = None ->
  getOrCreateClusterOperator r w =
    (inl freshRecord,
     store freshRecord
       (sent (CallCreate freshRecord) (sent (CallGet clusterOperatorName) w))) /\
  getOrCreateClusterOperator r (snd (getOrCreateClusterOperator r w)) =
    (inl freshRecord,
     sent (CallGet clusterOperatorName) (snd (getOrCreateClusterOperator r w))).
Proof.
  intros HG HC HS.
  assert (H1 : getOrCreateClusterOperator r w =
               (inl freshRecord,
                store freshRecord
                  (sent (CallCreate freshRecord) (sent (CallGet clusterOperatorName) w)))).
  { cbv beta zeta delta [getOrCreateClusterOperator bind client_Get].
    rewrite HG, HS. cbv beta iota. simpl IsNotFound. cbv beta iota.
    unfold client_Create. simpl. rewrite HC, HS. reflexivity. }
  split; [exact H1|]. rewrite H1. simpl snd.
  apply getOrCreate_reads_stored; [exact HG | reflexivity].
Qed.

Lemma getOrCreate_creates_once_witness :
  fst (getOrCreateClusterOperator exampleClient (quietWorld None)) = inl freshRecord /\
  calls (snd (getOrCreateClusterOperator exampleClient
                (snd (getOrCreateClusterOperator exampleClient (quietWorld None))))) =
  [ CallGet clusterOperatorName; CallCreate freshRecord; CallGet clusterOperatorName ].
Proof.
  destruct (getOrCreate_creates_once exampleClient (quietWorld None) eq_refl eq_refl eq_refl)
    as [H1 H2].
  rewrite H2, H1. split; reflexivity.
Defined.

Lemma getOrCreate_only_reads_or_creates_aux r w :
  stored w = None ->
  stored (snd (getOrCreateClusterOperator r w)) = None \/
  stored (snd (getOrCreateClusterOperator r w)) = Some freshRecord.
Proof.
  unfold getOrCreateClusterOperator, bind, client_Get, client_Create, ret.
  destruct w as [st ge ce ue wl rd cl]. simpl. intros ->.
  destruct ge as [[?|[] ?]|]; destruct ce as [?|]; simpl; auto.
Qed.

(** X2: the fetch sends a read, or a read and then a create of the empty
    record, and nothing else; it never changes a record that is stored, and
    where none is stored it leaves none or the empty record. *)
Theorem getOrCreate_only_reads_or_creates r w :
  (calls (snd (getOrCreateClusterOperator r w)) = calls w ++ [CallGet clusterOperatorName] \/
   calls (snd (getOrCreateClusterOperator r w)) =
     calls w ++ [CallGet clusterOperatorName; CallCreate freshRecord]) /\
  (forall o, stored w = Some o -> stored (snd (getOrCreateClusterOperator r w)) = Some o) /\
  (stored w = None ->
   stored (snd (getOrCreateClusterOperator r w)) = None \/
   stored (snd (getOrCreateClusterOperator r w)) = Some freshRecord).
Proof.
  split; [apply getOrCreate_requests|]. split; [apply getOrCreate_keeps_existing|].
  apply getOrCreate_only_reads_or_creates_aux.
Qed.

Lemma getOrCreate_only_reads_or_creates_witness :
  stored (snd (getOrCreateClusterOperator exampleClient (quietWorld (Some legacyRecord))))
  = Some legacyRecord.
Proof.
  apply (proj1 (proj2 (getOrCreate_only_reads_or_creates exampleClient
                         (quietWorld (Some legacyRecord))))).
  reflexivity.
Defined.

(** X3: GetReleaseVersion never returns the empty string: it is the value of
    RELEASE_VERSION when that is set to a non-empty string, and the literal
    [unknown] otherwise. *)
Theorem GetReleaseVersion_never_empty (os_Getenv : string -> string) :
  GetReleaseVersion os_Getenv <> "" /\
  (os_Getenv "RELEASE_VERSION" <> "" ->
   GetReleaseVersion os_Getenv = os_Getenv "RELEASE_VERSION") /\
  (os_Getenv "RELEASE_VERSION" = "" -> GetReleaseVersion os_Getenv = "unknown").
Proof.
  unfold GetReleaseVersion, releaseVersionEnvVariableName, unknownVersionValue.
  destruct (os_Getenv "RELEASE_VERSION") as [|a s]; simpl.
  - repeat split; [discriminate | congruence].
  - repeat split; discriminate.
Qed.

Lemma GetReleaseVersion_never_empty_witness :
  GetReleaseVersion (fun name => if String.eqb name "RELEASE_VERSION" then "4.16.0" else "")
  = "4.16.0" /\
  GetReleaseVersion (fun _ => "") = "unknown".
Proof.
  split.
  - apply (proj1 (proj2 (GetReleaseVersion_never_empty
                           (fun name => if String.eqb name "RELEASE_VERSION"
                                        then "4.16.0" else "")))).
    discriminate.
  - apply (proj2 (proj2 (GetReleaseVersion_never_empty (fun _ => "")))). reflexivity.
Defined.

Lemma append_assoc (a b c : string) : ((a ++ b) ++ c = a ++ b ++ c)%string.
Proof. induction a as [|x a IH]; simpl; [reflexivity | rewrite IH; reflexivity]. Qed.

Lemma strings_Join_app (xs ys : list string) (sep : string) :
  xs <> [] -> ys <> [] ->
  strings_Join (xs ++ ys) sep = (strings_Join xs sep ++ sep ++ strings_Join ys sep)%string.
Proof.
  intros Hx Hy. induction xs as [|x xs IH]; [congruence|].
  destruct xs as [|x' xs].
  - simpl. destruct ys; [congruence | reflexivity].
  - change (strings_Join ((x :: x' :: xs) ++ ys) sep)
      with (x ++ sep ++ strings_Join ((x' :: xs) ++ ys) sep)%string.
    rewrite IH by discriminate.
    change (strings_Join (x :: x' :: xs) sep)
      with (x ++ sep ++ strings_Join (x' :: xs) sep)%string.
    rewrite !append_assoc. reflexivity.
Qed.

(** X4: printOperandVersions renders every version as [name: version] and
    separates them with a comma and a space: the rendering of two non-empty
    lists put together is their renderings joined by that separator, and a
    single version is rendered without one. *)
Theorem printOperandVersions_app (xs ys : list OperandVersion) :
  xs <> [] -> ys <> [] ->
  printOperandVersions (xs ++ ys) =
  (printOperandVersions xs ++ ", " ++ printOperandVersions ys)%string /\
  forall v, printOperandVersions [v] = (ov_Name v ++ ": " ++ ov_Version v)%string.
Proof.
  intros Hx Hy. split; [|reflexivity].
  unfold printOperandVersions. rewrite map_app.
  apply strings_Join_app; destruct xs, ys; simpl; congruence.
Qed.

Lemma printOperandVersions_app_witness :
  printOperandVersions ([mkOperandVersion "operator" "4.16.0"]
                        ++ [mkOperandVersion "operand" "1.2"])
  = "operator: 4.16.0, operand: 1.2".
Proof.
  rewrite (proj1 (printOperandVersions_app [mkOperandVersion "operator" "4.16.0"]
                    [mkOperandVersion "operand" "1.2"]
                    ltac:(discriminate) ltac:(discriminate))).
  reflexivity.
Defined.

(** **** What the transitions leave in the store *)

Lemma policy_condition_lands clock before p after overrides cs :
  touches (cond_Type p) after = false -> touches (cond_Type p) overrides = false ->
  holds (mergeAll clock ((before ++ p :: after) ++ overrides) cs)
        (cond_Type p) (cond_Status p) (cond_Reason p) (cond_Message p).
Proof.
  intros Ha Ho. rewrite <- app_assoc. simpl.
  apply Find_mergeAll_last; [reflexivity|].
  rewrite touches_app, Ha, Ho. reflexivity.
Qed.

(** X5: after a Degraded, Progressing or Available transition that returns
    nil, the stored record points to exactly the three related objects of
    the client (the operator namespace, the cluster operator itself, the
    managed namespace), whatever it pointed to before. *)
Theorem successful_transition_related_objects render r t w :
  t <> ConditionRemoval ->
  fst (runTransition render r t w) = None ->
  exists co',
    stored (snd (runTransition render r t w)) = Some co' /\
    RelatedObjects (Status co') =
    [ mkObjectReference "" "namespaces" "" "openshift-cloud-controller-manager-operator";
      mkObjectReference "config.openshift.io" "clusteroperators" "" "cloud-controller-manager";
      mkObjectReference "" "namespaces" "" (ManagedNamespace r) ].
Proof.
  intros Ht Hok. destruct (transition_success render r t w Hok) as (co & w1 & _ & HS).
  eexists. split; [exact HS|]. unfold settled.
  replace (reachesSync t co) with true by (destruct t; congruence || reflexivity).
  apply sync_RelatedObjects.
Qed.

Lemma successful_transition_related_objects_witness :
  exists co',
    stored (snd (runTransition plainRendering exampleClient
                   (Degraded (errors_New "boom") []) (quietWorld (Some freshRecord))))
    = Some co' /\
    length (RelatedObjects (Status co')) = 3.
Proof.
  destruct (successful_transition_related_objects plainRendering exampleClient
              (Degraded (errors_New "boom") []) (quietWorld (Some freshRecord))
              ltac:(discriminate) eq_refl) as (co' & HS & HR).
  exists co'. split; [exact HS|]. rewrite HR. reflexivity.
Defined.

(** X6: after setStatusAvailable returns nil, the stored record has versions
    [{operator, releaseVersion}] and, for each of the four types that no
    override sets, holds Available=True/AsExpected with the availability
    message, Progressing=False/AsExpected, Degraded=False/AsExpected and
    Upgradeable=True/AsExpected, whatever it held before. *)
Theorem setStatusAvailable_outcome r overrides w :
  fst (setStatusAvailable r overrides w) = None ->
  exists co',
    stored (snd (setStatusAvailable r overrides w)) = Some co' /\
    Versions (Status co') = [ mkOperandVersion "operator" (ReleaseVersion r) ] /\
    (touches "Available" overrides = false ->
     holds (Conditions (Status co')) "Available" "True" "AsExpected"
       ("Cluster Cloud Controller Manager Operator is available at " ++ ReleaseVersion r)) /\
    (touches "Progressing" overrides = false ->
     holds (Conditions (Status co')) "Progressing" "False" "AsExpected" "") /\
    (touches "Degraded" overrides = false ->
     holds (Conditions (Status co')) "Degraded" "False" "AsExpected" "") /\
    (touches "Upgradeable" overrides = false ->
     holds (Conditions (Status co')) "Upgradeable" "True" "AsExpected" "").
Proof.
  intros Hok.
  destruct (transition_success plainRendering r (Available overrides) w Hok)
    as (co & w1 & _ & HS).
  eexists. split; [exact HS|]. unfold settled. cbn [reachesSync].
  split; [reflexivity|].
  rewrite sync_Conditions. cbn [policyConditions overridesOf].
  set (stamp := fun i : nat => wall w1 (i + reads w1)).
  set (cs := Conditions (Status (policyRecord r (Available overrides) co))).
  set (a := mkCondition OperatorAvailable ConditionTrue (stamp 0%nat) ReasonAsExpected
              ("Cluster Cloud Controller Manager Operator is available at "
               ++ ReleaseVersion r)%string).
  set (p := mkCondition OperatorProgressing ConditionFalse (stamp 1%nat) ReasonAsExpected "").
  set (d := mkCondition OperatorDegraded ConditionFalse (stamp 2%nat) ReasonAsExpected "").
  set (u := mkCondition OperatorUpgradeable ConditionTrue (stamp 3%nat) ReasonAsExpected "").
  repeat split; intros Ho.
  - exact (policy_condition_lands (Clock r) [] a [p; d; u] overrides cs eq_refl Ho).
  - exact (policy_condition_lands (Clock r) [a] p [d; u] overrides cs eq_refl Ho).
  - exact (policy_condition_lands (Clock r) [a; p] d [u] overrides cs eq_refl Ho).
  - exact (policy_condition_lands (Clock r) [a; p; d] u [] overrides cs eq_refl Ho).
Qed.

Lemma setStatusAvailable_outcome_witness :
  exists co',
    stored (snd (setStatusAvailable exampleClient [] (tickingWorld (Some degradedRecord))))
    = Some co' /\
    holds (Conditions (Status co')) "Degraded" "False" "AsExpected" "" /\
    Versions (Status co') = [ mkOperandVersion "operator" "4.16.0" ].
Proof.
  destruct (setStatusAvailable_outcome exampleClient []
              (tickingWorld (Some degradedRecord)) eq_refl)
    as (co' & HS & HV & _ & _ & HD & _).
  exists co'. split; [exact HS|]. split; [apply HD; reflexivity | exact HV].
Defined.

Lemma storedConditions_after_run render r t w T :
  t <> ConditionRemoval ->
  touches T (overridesOf t) = false ->
  (forall co stamp, touches T (policyConditions render r t co stamp) = false) ->
  FindStatusCondition (storedConditions (snd (runTransition render r t w))) T =
  FindStatusCondition (storedConditions w) T.
Proof.
  intros Ht Ho Hp. destruct (getOrCreate_keeps_store r w) as [_ HC].
  destruct (getOrCreateClusterOperator r w) as [[co|e] w1] eqn:Hfetch; simpl in HC.
  - destruct (getOrCreate_found r w co w1 Hfetch) as (HS & _ & HCco & _).
    rewrite (transition_run render r t w co w1 Hfetch).
    replace (reachesSync t co) with true by (destruct t; congruence || reflexivity).
    destruct (afterReadings_fields (readingsOf t) w1) as (HS2 & _).
    rewrite HS in HS2.
    destruct (syncStatus_outcome r (policyRecord r t co)
                (policyConditions render r t co (fun i => wall w1 (i + reads w1)))
                (overridesOf t) _ co HS2) as [(e & _ & Hrun) | (_ & Hrun)];
      rewrite Hrun.
    + unfold storedConditions at 1. simpl. rewrite HS2, HCco. reflexivity.
    + unfold storedConditions at 1. cbn [snd store stored Status]. rewrite sync_Conditions.
      rewrite Find_mergeAll_untouched by (rewrite touches_app, Hp, Ho; reflexivity).
      rewrite <- HCco. destruct t; congruence || reflexivity.
  - rewrite (transition_fetch_failed render r t w e w1 Hfetch). simpl.
    rewrite HC. reflexivity.
Qed.

(** X7: setStatusDegraded does not modify conditions of any type other than
    Degraded and Upgradeable, and setStatusProgressing none other than
    Progressing and Upgradeable: whether the transition succeeds or fails,
    the store holds for every other type that no override sets the condition
    it held before. *)
Theorem transitions_leave_other_conditions render r w T :
  (forall reconcileErr overrides,
     T <> "Degraded" -> T <> "Upgradeable" -> touches T overrides = false ->
     FindStatusCondition
       (storedConditions (snd (setStatusDegraded render r reconcileErr overrides w))) T =
     FindStatusCondition (storedConditions w) T) /\
  (forall overrides,
     T <> "Progressing" -> T <> "Upgradeable" -> touches T overrides = false ->
     FindStatusCondition (storedConditions (snd (setStatusProgressing r overrides w))) T =
     FindStatusCondition (storedConditions w) T).
Proof.
  split.
  - intros reconcileErr overrides H1 H2 Ho.
    apply (storedConditions_after_run render r (Degraded reconcileErr overrides) w T);
      [discriminate | exact Ho |].
    intros co stamp. apply String.eqb_neq in H1, H2. simpl. unfold OperatorDegraded,
      OperatorUpgradeable. rewrite H1, H2. reflexivity.
  - intros overrides H1 H2 Ho.
    apply (storedConditions_after_run render r (Progressing overrides) w T);
      [discriminate | exact Ho |].
    intros co stamp. apply String.eqb_neq in H1, H2. simpl. unfold OperatorProgressing,
      OperatorUpgradeable. rewrite H1, H2. reflexivity.
Qed.

Lemma transitions_leave_other_conditions_witness :
  FindStatusCondition
    (storedConditions
       (snd (setStatusDegraded plainRendering exampleClient (errors_New "boom") []
               (tickingWorld (Some degradedRecord))))) "Available" =
  Some (mkCondition OperatorAvailable ConditionTrue 1%Z ReasonAsExpected "").
Proof.
  rewrite (proj1 (transitions_leave_other_conditions plainRendering exampleClient
                    (tickingWorld (Some degradedRecord)) "Available")
             (errors_New "boom") [] ltac:(discriminate) ltac:(discriminate) eq_refl).
  reflexivity.
Defined.

(** X8: a retry is stable.  When a transition has returned nil, running the
    same transition again (same error, same overrides) leaves the stored
    record exactly as the first run left it, timestamps included, although
    the second run stamps its conditions with later clock readings. *)
Theorem retry_is_stable render r t w :
  fst (runTransition render r t w) = None ->
  stored (snd (runTransition render r t (snd (runTransition render r t w)))) =
  stored (snd (runTransition render r t w)).
Proof.
  intros Hok. destruct (transition_success render r t w Hok) as (co & w1 & _ & HS).
  set (w' := snd (runTransition render r t w)) in *.
  destruct (fst (runTransition render r t w')) as [e|] eqn:Hsecond.
  - rewrite HS. apply failed_run_keeps_record; [exact HS | congruence].
  - destruct (transition_success render r t w' Hsecond) as (co' & w1' & Hfetch' & HS').
    destruct (getOrCreate_found_existing r w' _ co' w1' HS Hfetch') as [-> _].
    rewrite HS', HS, settled_idempotent. reflexivity.
Qed.

Lemma retry_is_stable_witness :
  stored (snd (runTransition plainRendering exampleClient (Available [])
                 (snd (runTransition plainRendering exampleClient (Available [])
                         (tickingWorld (Some degradedRecord)))))) =
  stored (snd (runTransition plainRendering exampleClient (Available [])
                 (tickingWorld (Some degradedRecord)))).
Proof.
  apply (retry_is_stable plainRendering exampleClient (Available [])
           (tickingWorld (Some degradedRecord))).
  reflexivity.
Defined.

(** X9: a sync never drops or reorders conditions: the types of the record's
    conditions stay in place, types that only the policy conditions or the
    overrides bring are appended after them, and a record whose condition
    types are pairwise distinct stays so. *)
Theorem sync_keeps_order_and_uniqueness r co conds overrides :
  (exists added,
     map cond_Type (Conditions (Status (sync r co conds overrides))) =
     map cond_Type (Conditions (Status co)) ++ added /\
     forall T, In T added -> In T (map cond_Type (conds ++ overrides))) /\
  (NoDup (map cond_Type (Conditions (Status co))) ->
   NoDup (map cond_Type (Conditions (Status (sync r co conds overrides))))).
Proof.
  rewrite sync_Conditions. apply mergeAll_types.
Qed.

Lemma sync_keeps_order_and_uniqueness_witness :
  NoDup (map cond_Type
           (Conditions (Status (sync exampleClient degradedRecord
              [upgradeableAt ConditionTrue 10%Z ReasonAsExpected]
              [upgradeableAt ConditionFalse 10%Z "Override"])))).
Proof.
  apply (proj2 (sync_keeps_order_and_uniqueness exampleClient degradedRecord
                  [upgradeableAt ConditionTrue 10%Z ReasonAsExpected]
                  [upgradeableAt ConditionFalse 10%Z "Override"])).
  simpl. repeat constructor; simpl; intuition discriminate.
Defined.

(** X10: a transition that returns an error has not changed a record that
    was stored; where none was stored it leaves none, or the empty record
    the fetch created.  No partly merged condition list reaches the store. *)
Theorem failed_transition_leaves_record render r t w :
  fst (runTransition render r t w) <> None ->
  (forall o, stored w = Some o -> stored (snd (runTransition render r t w)) = Some o) /\
  (stored w = None ->
   stored (snd (runTransition render r t w)) = None \/
   stored (snd (runTransition render r t w)) = Some freshRecord).
Proof.
  intros Hfail. split.
  - intros o HS. apply failed_run_keeps_record; assumption.
  - intros HS.
    destruct (getOrCreate_only_reads_or_creates_aux r w HS) as [Hnone | Hfresh].
    + destruct (getOrCreateClusterOperator r w) as [[co|e] w1] eqn:Hfetch; simpl in Hnone.
      * destruct (getOrCreate_found r w co w1 Hfetch) as (HS1 & _). congruence.
      * rewrite (transition_fetch_failed render r t w e w1 Hfetch). auto.
    + destruct (getOrCreateClusterOperator r w) as [[co|e] w1] eqn:Hfetch; simpl in Hfresh.
      * right. rewrite (transition_run render r t w co w1 Hfetch) in *.
        destruct (reachesSync t co); [|exfalso; apply Hfail; reflexivity].
        destruct (afterReadings_fields (readingsOf t) w1) as (HS2 & _).
        rewrite Hfresh in HS2.
        destruct (syncStatus_outcome r (policyRecord r t co)
                    (policyConditions render r t co (fun i => wall w1 (i + reads w1)))
                    (overridesOf t) _ freshRecord HS2) as [(e & _ & Hrun) | (_ & Hrun)];
          rewrite Hrun in *; [exact HS2 | exfalso; apply Hfail; reflexivity].
      * rewrite (transition_fetch_failed render r t w e w1 Hfetch). auto.
Qed.

Lemma failed_transition_leaves_record_witness :
  stored (snd (runTransition plainRendering exampleClient (Available [])
                 (failingUpdate (errors_New "conflict") (Some degradedRecord))))
  = Some degradedRecord.
Proof.
  apply (proj1 (failed_transition_leaves_record plainRendering exampleClient (Available [])
                  (failingUpdate (errors_New "conflict") (Some degradedRecord))
                  ltac:(discriminate))).
  reflexivity.
Defined.

(** X11: for a reconcile error made by [errors.New] (or by [fmt.Errorf]
    without [%w]) with text [text], setStatusDegraded hands syncStatus
    Degraded=True/SyncingFailed and Upgradeable=False/AsExpected; the
    Degraded message starts with [Failed to resync for operator: <version>]
    when the fetched versions are the desired list and with
    [Failed when progressing towards operator: <version>] when they are not,
    and in both cases ends with [ because ] and the [%e] rendering of the
    error value, [&{%!e(string=<text>)}]. *)
Theorem setStatusDegraded_conditions render r text overrides w co w1 :
  getOrCreateClusterOperator r w = (inl co, w1) ->
  exists message t1 t2 w2,
    (Versions (Status co) = desiredVersions r ->
     message = ("Failed to resync for operator: " ++ ReleaseVersion r
                ++ " because &{%!e(string=" ++ text ++ ")}")%string) /\
    (Versions (Status co) <> desiredVersions r ->
     message = ("Failed when progressing towards operator: " ++ ReleaseVersion r
                ++ " because &{%!e(string=" ++ text ++ ")}")%string) /\
    setStatusDegraded render r (errors_New text) overrides w =
    syncStatus r co
      [ mkCondition "Degraded" "True" t1 "SyncingFailed" message;
        mkCondition "Upgradeable" "False" t2 "AsExpected" "" ]
      overrides w2.
Proof.
  intros Hfetch. do 4 eexists. split; [|split].
  3: apply (setStatusDegraded_found render r (errors_New text) overrides w co w1 Hfetch).
  - intros Heq.
    assert (E : reflect_DeepEqual (desiredVersions r) (Versions (Status co)) = true)
      by (apply reflect_DeepEqual_eq; congruence).
    rewrite E. reflexivity.
  - intros Hne.
    destruct (reflect_DeepEqual (desiredVersions r) (Versions (Status co))) eqn:E.
    + apply reflect_DeepEqual_eq in E. congruence.
    + reflexivity.
Qed.

Lemma setStatusDegraded_conditions_witness :
  exists t1 t2 w2,
    setStatusDegraded plainRendering exampleClient (errors_New "connection refused") []
      (quietWorld None) =
    syncStatus exampleClient freshRecord
      [ mkCondition "Degraded" "True" t1 "SyncingFailed"
          "Failed when progressing towards operator: 4.16.0 because &{%!e(string=connection refused)}";
        mkCondition "Upgradeable" "False" t2 "AsExpected" "" ]
      [] w2.
Proof.
  destruct (setStatusDegraded_conditions plainRendering exampleClient "connection refused" []
              (quietWorld None) freshRecord _ eq_refl)
    as (message & t1 & t2 & w2 & _ & Hdiff & Hrun).
  rewrite (Hdiff ltac:(discriminate)) in Hrun.
  exists t1, t2, w2. exact Hrun.
Defined.

(** X12: once setStatusAvailable has returned nil (and reads do not fail),
    the recorded version is the release version, so the transitions that
    follow report a resync and not an upgrade: setStatusProgressing hands
    syncStatus Progressing=True/AsExpected with an empty message, and
    setStatusDegraded a message that starts with [Failed to resync for]. *)
Theorem resync_after_Available render r overrides w :
  GetErr w = None ->
  fst (setStatusAvailable r overrides w) = None ->
  (forall overrides', exists co' t1 t2 w2,
     setStatusProgressing r overrides' (snd (setStatusAvailable r overrides w)) =
     syncStatus r co'
       [ mkCondition "Progressing" "True" t1 "AsExpected" "";
         mkCondition "Upgradeable" "True" t2 "AsExpected" "" ]
       overrides' w2) /\
  (forall reconcileErr overrides', exists co' t1 t2 w2,
     setStatusDegraded render r reconcileErr overrides'
       (snd (setStatusAvailable r overrides w)) =
     syncStatus r co'
       [ mkCondition "Degraded" "True" t1 "SyncingFailed"
           ("Failed to resync for operator: " ++ ReleaseVersion r ++ " because "
            ++ Sprintf_e render reconcileErr);
         mkCondition "Upgradeable" "False" t2 "AsExpected" "" ]
       overrides' w2).
Proof.
  intros HG Hok.
  destruct (transition_success render r (Available overrides) w Hok)
    as (co & w1 & _ & HS).
  destruct (run_keeps_plan render r (Available overrides) w) as [HG' _].
  simpl runTransition in HS, HG'. rewrite HG in HG'.
  pose proof (getOrCreate_reads_stored r _ _ HG' HS) as Hfetch.
  assert (E : reflect_DeepEqual (desiredVersions r)
                (Versions (Status (settled render r (Available overrides) co
                                     (fun i => wall w1 (i + reads w1))))) = true)
    by (apply reflect_DeepEqual_eq; reflexivity).
  split.
  - intros overrides'. do 4 eexists.
    rewrite (setStatusProgressing_found r overrides' _ _ _ Hfetch), E. reflexivity.
  - intros reconcileErr overrides'. do 4 eexists.
    rewrite (setStatusDegraded_found render r reconcileErr overrides' _ _ _ Hfetch), E.
    reflexivity.
Qed.

Lemma resync_after_Available_witness :
  exists co' t1 t2 w2,
    setStatusProgressing exampleClient []
      (snd (setStatusAvailable exampleClient [] (tickingWorld None))) =
    syncStatus exampleClient co'
      [ mkCondition "Progressing" "True" t1 "AsExpected" "";
        mkCondition "Upgradeable" "True" t2 "AsExpected" "" ]
      [] w2.
Proof.
  apply (proj1 (resync_after_Available plainRendering exampleClient [] (tickingWorld None)
                  eq_refl eq_refl)).
Defined.

(** X16: the requests of a transition.  Every transition sends one read,
    then at most one create (of the empty record), then at most one status
    update, and nothing else; when the fetch fails no status update is
    sent. *)
Theorem transition_requests render r t w :
  exists create update,
    calls (snd (runTransition render r t w)) =
      calls w ++ CallGet clusterOperatorName :: create ++ update /\
    (create = [] \/ create = [CallCreate freshRecord]) /\
    (update = [] \/ exists co', update = [CallStatusUpdate co']) /\
    (forall e w1, getOrCreateClusterOperator r w = (inr e, w1) -> update = []).
Proof.
  pose proof (getOrCreate_requests r w) as Hreq.
  destruct (getOrCreateClusterOperator r w) as [[co|e] w1] eqn:Hfetch; simpl in Hreq.
  - rewrite (transition_run render r t w co w1 Hfetch).
    destruct (reachesSync t co).
    + destruct (afterReadings_fields (readingsOf t) w1) as (_ & _ & _ & _ & Hcalls).
      assert (Hup : calls (snd (syncStatus r (policyRecord r t co)
                     (policyConditions render r t co (fun i => wall w1 (i + reads w1)))
                     (overridesOf t) (afterReadings (readingsOf t) w1))) =
                    calls w1 ++
                    [CallStatusUpdate
                       (sync r (policyRecord r t co)
                          (policyConditions render r t co (fun i => wall w1 (i + reads w1)))
                          (overridesOf t))]).
      { unfold syncStatus.
        destruct (Status_Update_outcome
                    (sync r (policyRecord r t co)
                       (policyConditions render r t co (fun i => wall w1 (i + reads w1)))
                       (overridesOf t))
                    (afterReadings (readingsOf t) w1)) as [[e ->] | [o [_ ->]]];
          simpl; rewrite Hcalls; reflexivity. }
      rewrite Hup.
      destruct Hreq as [-> | ->].
      * exists [], [CallStatusUpdate
                      (sync r (policyRecord r t co)
                         (policyConditions render r t co (fun i => wall w1 (i + reads w1)))
                         (overridesOf t))].
        rewrite <- app_assoc. repeat split; eauto. intros; discriminate.
      * exists [CallCreate freshRecord],
               [CallStatusUpdate
                  (sync r (policyRecord r t co)
                     (policyConditions render r t co (fun i => wall w1 (i + reads w1)))
                     (overridesOf t))].
        rewrite <- app_assoc. repeat split; eauto. intros; discriminate.
    + cbn [snd]. destruct Hreq as [-> | ->].
      * exists [], []. repeat split; auto.
      * exists [CallCreate freshRecord], []. repeat split; auto.
  - rewrite (transition_fetch_failed render r t w e w1 Hfetch). cbn [snd].
    destruct Hreq as [-> | ->].
    + exists [], []. repeat split; auto.
    + exists [CallCreate freshRecord], []. repeat split; auto.
Qed.

Lemma transition_requests_witness :
  calls (snd (runTransition plainRendering exampleClient (Progressing [])
                (failingGet (errors_New "timeout") (Some degradedRecord)))) =
  [CallGet clusterOperatorName].
Proof.
  destruct (transition_requests plainRendering exampleClient (Progressing [])
              (failingGet (errors_New "timeout") (Some degradedRecord)))
    as (create & update & Hcalls & _ & _ & Hnone).
  rewrite (Hnone _ _ eq_refl), app_nil_r in Hcalls.
  rewrite Hcalls. vm_compute in Hcalls. injection Hcalls as <-. reflexivity.
Defined.

End store_properties.

(* ===================================================================== *)
(** ** More on the PEM utility *)
(* ===================================================================== *)

Module certificate_properties.

Import util certificate_facts.

Section Bundle.

Variable Certificate : Type.
Variable pem_Decode : list Byte.byte -> option Block * list Byte.byte.
Variable x509_ParseCertificate : list Byte.byte -> Certificate + error.
Hypothesis pem_Decode_consumes : forall data block rest,
  pem_Decode data = (Some block, rest) -> length rest < length data.
Variable strconv_Quote : string -> string.

Local Notation "'loop'" :=
  (CertificateData_loop Certificate pem_Decode x509_ParseCertificate pem_Decode_consumes)
  (only parsing).
Local Notation "'Good'" :=
  (AllBlocksGood Certificate pem_Decode x509_ParseCertificate) (only parsing).
Local Notation "'Bad'" :=
  (SomeBlockBad Certificate pem_Decode x509_ParseCertificate) (only parsing).

(** The error on a bad input does not depend on the certificates gathered so
    far, and is one of the three the loop can build. *)
Lemma loop_error_on_bad_block data :
  Bad data ->
  exists err,
    (forall certBundle, loop data certBundle = inr err) /\
    (err = errors_New "failed to parse certificate PEM" \/
     err = errors_New ("invalid certificate PEM, must be of type "
                       ++ Sprintf_q "CERTIFICATE")%string \/
     exists e, err = errors_New ("failed to parse certificate: " ++ Error e)%string).
Proof.
  induction 1 as [data rest Hne Hdec
                 |data block rest Hne Hdec Hty
                 |data block rest err Hne Hdec Hty Hparse
                 |data block rest cert Hne Hdec Hty Hparse _ IH].
  - eexists. split; [|left; reflexivity]. intros certBundle.
    rewrite (CertificateData_loop_step Certificate pem_Decode x509_ParseCertificate pem_Decode_consumes data certBundle Hne), Hdec. reflexivity.
  - eexists. split; [|right; left; reflexivity]. intros certBundle.
    rewrite (CertificateData_loop_step Certificate pem_Decode x509_ParseCertificate pem_Decode_consumes data certBundle Hne), Hdec.
    apply String.eqb_neq in Hty. rewrite Hty. reflexivity.
  - eexists. split; [|right; right; eexists; reflexivity]. intros certBundle.
    rewrite (CertificateData_loop_step Certificate pem_Decode x509_ParseCertificate pem_Decode_consumes data certBundle Hne), Hdec, Hty,
      String.eqb_refl, Hparse. reflexivity.
  - destruct IH as (err & Hall & Hform). exists err. split; [|exact Hform].
    intros certBundle.
    rewrite (CertificateData_loop_step Certificate pem_Decode x509_ParseCertificate pem_Decode_consumes data certBundle Hne), Hdec, Hty,
      String.eqb_refl, Hparse. apply Hall.
Qed.

Lemma Good_count data certs : Good data certs -> length certs <= length data.
Proof.
  induction 1 as [|data block rest cert certs Hne Hdec Hty Hparse _ IH].
  - simpl. lia.
  - pose proof (pem_Decode_consumes _ _ _ Hdec). simpl. lia.
Qed.

Lemma Good_nonempty data certs : Good data certs -> data <> [] -> certs <> [].
Proof. destruct 1; [congruence | discriminate]. Qed.

Lemma certificateData_cases data :
  (exists certs, Good data certs /\ (CertificateData Certificate pem_Decode x509_ParseCertificate pem_Decode_consumes) data = inl certs) \/
  (exists err, Bad data /\ (CertificateData Certificate pem_Decode x509_ParseCertificate pem_Decode_consumes) data = inr err).
Proof.
  destruct (blocks_classified Certificate pem_Decode x509_ParseCertificate pem_Decode_consumes (length data) data (le_n _))
    as [[certs Hgood] | Hbad].
  - left. exists certs. split; [exact Hgood|].
    apply (loop_on_good_blocks Certificate pem_Decode x509_ParseCertificate pem_Decode_consumes data certs Hgood []).
  - right. destruct (loop_error_on_bad_block data Hbad) as (err & Hall & _).
    exists err. split; [exact Hbad | apply Hall].
Qed.

(** X13: reading a bundle block by block.  When the first block of a
    non-empty input decodes as a CERTIFICATE block and parses, the result on
    the input is the result on the rest of the input with that certificate
    put in front; an error on the rest is the error on the input. *)
Theorem CertificateData_first_block data block rest cert :
  data <> [] ->
  pem_Decode data = (Some block, rest) ->
  block_Type block = "CERTIFICATE" ->
  x509_ParseCertificate (block_Bytes block) = inl cert ->
  CertificateData Certificate pem_Decode x509_ParseCertificate pem_Decode_consumes data =
  match CertificateData Certificate pem_Decode x509_ParseCertificate pem_Decode_consumes
          rest with
  | inl certs => inl (cert :: certs)
  | inr err => inr err
  end.
Proof.
  intros Hne Hdec Hty Hparse. unfold CertificateData.
  rewrite (CertificateData_loop_step Certificate pem_Decode x509_ParseCertificate pem_Decode_consumes data [] Hne), Hdec, Hty. simpl.
  rewrite Hparse.
  destruct (certificateData_cases rest) as [(certs & Hgood & Hrun) | (err & Hbad & Hrun)];
    unfold CertificateData in Hrun; rewrite Hrun.
  - apply (loop_on_good_blocks Certificate pem_Decode x509_ParseCertificate pem_Decode_consumes rest certs Hgood [cert]).
  - destruct (loop_error_on_bad_block rest Hbad) as (err' & Hall & _).
    rewrite Hall in Hrun. rewrite Hall. exact Hrun.
Qed.

(** X14: the error of CertificateData is one of three: the input does not
    decode as PEM, a block is not of type CERTIFICATE, or a certificate does
    not parse (with the parser's error text after the colon).  And a
    successful run returns at most as many certificates as the input has
    bytes. *)
Theorem CertificateData_errors_and_count data :
  (forall err, (CertificateData Certificate pem_Decode x509_ParseCertificate pem_Decode_consumes) data = inr err ->
     err = errors_New "failed to parse certificate PEM" \/
     err = errors_New ("invalid certificate PEM, must be of type "
                       ++ Sprintf_q "CERTIFICATE")%string \/
     exists e, err = errors_New ("failed to parse certificate: " ++ Error e)%string) /\
  (forall certs, (CertificateData Certificate pem_Decode x509_ParseCertificate pem_Decode_consumes) data = inl certs -> length certs <= length data).
Proof.
  destruct (certificateData_cases data) as [(certs & Hgood & Hrun) | (err & Hbad & Hrun)];
    rewrite Hrun; split; intros x Hx; try discriminate Hx.
  - injection Hx as <-. apply Good_count, Hgood.
  - injection Hx as <-.
    destruct (loop_error_on_bad_block data Hbad) as (err' & Hall & Hform).
    unfold CertificateData in Hrun. rewrite Hall in Hrun. injection Hrun as <-.
    exact Hform.
Qed.

(** X15: TrustBundleConfigMap succeeds exactly when the ConfigMap has the key
    [ca-bundle.crt], its value is not empty and CertificateData accepts its
    bytes; it then returns those bytes unchanged and at least one
    certificate.  A missing key and an empty value are errors of their
    own. *)
Theorem TrustBundleConfigMap_outcome cfgMap :
  (forall certs data,
     (TrustBundleConfigMap Certificate pem_Decode x509_ParseCertificate pem_Decode_consumes strconv_Quote) cfgMap = inl (certs, data) <->
     exists value,
       cm_Data cfgMap "ca-bundle.crt" = Some value /\
       data = list_byte_of_string value /\ data <> [] /\
       (CertificateData Certificate pem_Decode x509_ParseCertificate pem_Decode_consumes) data = inl certs) /\
  (forall certs data, (TrustBundleConfigMap Certificate pem_Decode x509_ParseCertificate pem_Decode_consumes strconv_Quote) cfgMap = inl (certs, data) -> certs <> []) /\
  (cm_Data cfgMap "ca-bundle.crt" = None ->
   (TrustBundleConfigMap Certificate pem_Decode x509_ParseCertificate pem_Decode_consumes strconv_Quote) cfgMap =
   inr (errors_New ("ConfigMap " ++ strconv_Quote (cm_Name cfgMap) ++ " is missing "
                    ++ Sprintf_q "ca-bundle.crt")%string)) /\
  (cm_Data cfgMap "ca-bundle.crt" = Some "" ->
   (TrustBundleConfigMap Certificate pem_Decode x509_ParseCertificate pem_Decode_consumes strconv_Quote) cfgMap =
   inr (errors_New ("data key " ++ Sprintf_q "ca-bundle.crt" ++ " is empty from ConfigMap "
                    ++ strconv_Quote (cm_Name cfgMap))%string)).
Proof.
  assert (Hiff : forall certs data,
             (TrustBundleConfigMap Certificate pem_Decode x509_ParseCertificate pem_Decode_consumes strconv_Quote) cfgMap = inl (certs, data) <->
             exists value,
               cm_Data cfgMap "ca-bundle.crt" = Some value /\
               data = list_byte_of_string value /\ data <> [] /\
               (CertificateData Certificate pem_Decode x509_ParseCertificate pem_Decode_consumes) data = inl certs).
  { intros certs data. unfold TrustBundleConfigMap, trustedCABundleConfigMapKey. split.
    - destruct (cm_Data cfgMap "ca-bundle.crt") as [value|]; [|discriminate].
      destruct (list_byte_of_string value) as [|b bs] eqn:E; [discriminate|].
      cbn [length Nat.eqb].
      destruct ((CertificateData Certificate pem_Decode x509_ParseCertificate pem_Decode_consumes) (b :: bs)) as [bundle|err] eqn:Hrun; [|discriminate].
      intros H. injection H as <- <-. exists value. rewrite E. repeat split; auto.
      discriminate.
    - intros (value & -> & -> & Hne & Hrun).
      destruct (list_byte_of_string value) as [|b bs]; [congruence|].
      cbn [length Nat.eqb]. rewrite Hrun. reflexivity. }
  split; [exact Hiff|]. split; [|split].
  - intros certs data H. apply Hiff in H as (value & _ & _ & Hne & Hrun).
    destruct (certificateData_cases data) as [(cs & Hgood & Hrun') | (err & _ & Hrun')];
      rewrite Hrun' in Hrun; [|discriminate].
    injection Hrun as <-. apply (Good_nonempty data cs Hgood Hne).
  - intros H. unfold TrustBundleConfigMap, trustedCABundleConfigMapKey. rewrite H.
    reflexivity.
  - intros H. unfold TrustBundleConfigMap, trustedCABundleConfigMapKey. rewrite H.
    reflexivity.
Qed.

End Bundle.

Lemma CertificateData_first_block_witness :
  CertificateData (list Byte.byte) fixtures.byteBlocks fixtures.bytesAsCertificate
    byteBlocks_consumes [Byte.x41; Byte.x42] =
  match CertificateData (list Byte.byte) fixtures.byteBlocks fixtures.bytesAsCertificate
          byteBlocks_consumes [Byte.x42] with
  | inl certs => inl ([Byte.x41] :: certs)
  | inr err => inr err
  end.
Proof.
  apply (CertificateData_first_block (list Byte.byte) fixtures.byteBlocks
           fixtures.bytesAsCertificate byteBlocks_consumes
           [Byte.x41; Byte.x42] (mkBlock certPEMBlock [Byte.x41]) [Byte.x42] [Byte.x41]);
    [discriminate | reflexivity | reflexivity | reflexivity].
Defined.

Lemma CertificateData_errors_and_count_witness :
  match CertificateData (list Byte.byte) fixtures.byteBlocks fixtures.bytesAsCertificate
          byteBlocks_consumes [Byte.x41; Byte.x42] with
  | inl certs => length certs <= 2
  | inr err =>
      err = errors_New "failed to parse certificate PEM" \/
      err = errors_New ("invalid certificate PEM, must be of type "
                        ++ Sprintf_q "CERTIFICATE")%string \/
      exists e, err = errors_New ("failed to parse certificate: " ++ Error e)%string
  end.
Proof.
  destruct (CertificateData (list Byte.byte) fixtures.byteBlocks fixtures.bytesAsCertificate
              byteBlocks_consumes [Byte.x41; Byte.x42]) as [certs|err] eqn:E.
  - exact (proj2 (CertificateData_errors_and_count (list Byte.byte) fixtures.byteBlocks
                    fixtures.bytesAsCertificate byteBlocks_consumes
                    [Byte.x41; Byte.x42]) certs E).
  - exact (proj1 (CertificateData_errors_and_count (list Byte.byte) fixtures.byteBlocks
                    fixtures.bytesAsCertificate byteBlocks_consumes
                    [Byte.x41; Byte.x42]) err E).
Defined.

Lemma TrustBundleConfigMap_outcome_witness :
  TrustBundleConfigMap (list Byte.byte) fixtures.byteBlocks fixtures.bytesAsCertificate
    byteBlocks_consumes Sprintf_q fixtures.trustedCA =
  inl ([[Byte.x41]; [Byte.x42]], [Byte.x41; Byte.x42]).
Proof.
  apply (proj1 (TrustBundleConfigMap_outcome (list Byte.byte) fixtures.byteBlocks
                  fixtures.bytesAsCertificate byteBlocks_consumes Sprintf_q
                  fixtures.trustedCA)).
  exists "AB". split; [reflexivity|]. split; [reflexivity|]. split; [discriminate|].
  apply (loop_on_good_blocks (list Byte.byte) fixtures.byteBlocks
           fixtures.bytesAsCertificate byteBlocks_consumes
           [Byte.x41; Byte.x42] [[Byte.x41]; [Byte.x42]]).
  eapply Good_block; [discriminate | reflexivity | reflexivity | reflexivity |].
  eapply Good_block; [discriminate | reflexivity | reflexivity | reflexivity |].
  apply Good_end.
Defined.

End certificate_properties.
